(** * 03_algorithms_c/algorithms.c: weighted average and ranking by score

    A shallow embedding of the two exported routines of [algorithms.c],
    [calcular_media_ponderada] and [ordenar_por_desempenho] (with its
    comparator [comparar_desempenho]), and the properties established
    about them.

    Conventions of the embedding:
    - a C [float] is an IEEE-754 binary32 value, modelled by the Standard
      Library's [spec_float] at precision 24 and maximal exponent 128,
      every operation rounding to nearest even and evaluated in single
      precision (no wider intermediate format, no fused multiply-add);
    - a C [int] that only counts or indexes is a [Z]; none of the
      routines can overflow one, since indices stay between 0 and the
      count they are given;
    - an array is the list of its elements, a possibly null pointer to
      an array is an [option] of such a list, and an access outside the
      array is undefined behaviour, an outcome of its own;
    - [qsort] belongs to the C library, not to this program: it is an
      interface with the contract the C standard gives it, which binds
      it only when the comparator is consistent on the array, and
      implementations of that interface are provided. *)

From Stdlib Require Import ZArith List Lia Bool Permutation Sorted.
From Stdlib Require Import Floats.SpecFloat.
Import ListNotations.

Local Open Scope Z_scope.

(** ** Single-precision floating point *)

Module F32.

Definition prec : Z := 24.
Definition emax : Z := 128.

Definition t : Type := spec_float.

Definition zero : t := S754_zero false.
Definition nan : t := S754_nan.

Definition add : t -> t -> t := SFadd prec emax.
Definition mul : t -> t -> t := SFmul prec emax.
Definition div : t -> t -> t := SFdiv prec emax.

(** The C comparisons [<], [>], [>=], [==] and [<=]: all false on a NaN,
    and the two zeros are equal. *)
Definition ltb : t -> t -> bool := SFltb.
Definition gtb (x y : t) : bool := SFltb y x.
Definition geb (x y : t) : bool := SFleb y x.
Definition eqb : t -> t -> bool := SFeqb.
Definition leb : t -> t -> bool := SFleb.

Definition is_nan (x : t) : bool :=
  match x with S754_nan => true | _ => false end.

(** The place of a float in the order of the comparisons: the class
    (negative infinity, negative, zero, positive, positive infinity),
    then the exponent and the mantissa, both negated for a negative
    number. The two zeros share a key; a NaN is given one after all
    others, which no comparison consults. *)
Definition key (x : t) : Z * Z * Z :=
  match x with
  | S754_infinity true => (-2, 0, 0)
  | S754_finite true m e => (-1, - e, - Zpos m)
  | S754_zero _ => (0, 0, 0)
  | S754_finite false m e => (1, e, Zpos m)
  | S754_infinity false => (2, 0, 0)
  | S754_nan => (3, 0, 0)
  end.

(** The lexicographic order of keys. *)
Definition key_le (k1 k2 : Z * Z * Z) : Prop :=
  let '(a1, a2, a3) := k1 in
  let '(b1, b2, b3) := k2 in
  a1 < b1 \/ (a1 = b1 /\ (a2 < b2 \/ (a2 = b2 /\ a3 <= b3))).

(** The float nearest to the integer [m], and the float nearest to the
    decimal literal [m / 10^d] (a correctly rounded quotient of two
    exactly represented integers). *)
Definition of_Z (m : Z) : t := binary_normalize prec emax m 0 false.
Definition of_decimal (m : Z) (d : nat) : t :=
  div (of_Z m) (of_Z (10 ^ Z.of_nat d)).

End F32.

(** ** Outcomes of a call *)

(** A call either completes with a value, or has undefined behaviour (an
    access outside an array), or, in the model only, exhausts the fuel
    given to a loop. *)
Inductive outcome (A : Type) : Type :=
| Done (a : A)
| Undefined
| OutOfFuel.

Arguments Done {A} a.
Arguments Undefined {A}.
Arguments OutOfFuel {A}.

Definition bind {A B : Type} (m : outcome A) (k : A -> outcome B) : outcome B :=
  match m with
  | Done a => k a
  | Undefined => Undefined
  | OutOfFuel => OutOfFuel
  end.

Notation "x <- m ;; k" := (bind m (fun x => k))
  (at level 61, m at next level, right associativity).

(** ** Data *)

(** [a[i]], when [i] is inside the array. *)
Definition index {A : Type} (a : list A) (i : Z) : option A :=
  if i <? 0 then None else nth_error a (Z.to_nat i).

(** The elements of indices [i .. count-1] of an array. *)
Definition slice {A : Type} (l : list A) (i count : Z) : list A :=
  skipn (Z.to_nat i) (firstn (Z.to_nat count) l).

(** [typedef struct { int id_aluno; float media_final; } DesempenhoAluno;] *)
Record DesempenhoAluno : Type := mkDesempenho {
  id_aluno : Z;
  media_final : F32.t
}.

(** ** [calcular_media_ponderada] *)

(** The array reads a call performs, in program order. *)
Inductive access : Type :=
| ReadNota (i : Z)
| ReadPeso (i : Z).

Definition read (a : list F32.t) (i : Z) : outcome F32.t :=
  match index a i with
  | Some x => Done x
  | None => Undefined
  end.

(** The variables of the loop, and the reads made so far. *)
Record media_state : Type := mkMedia {
  var_i : Z;
  soma_produtos : F32.t;
  soma_pesos : F32.t;
  reads : list access
}.

(** One iteration:
    [soma_produtos += notas[i] * pesos[i]; soma_pesos += pesos[i]; i++]. *)
Definition media_body (notas pesos : list F32.t) (st : media_state)
  : outcome media_state :=
  let i := var_i st in
  n <- read notas i ;;
  p <- read pesos i ;;
  p' <- read pesos i ;;
  Done {| var_i := i + 1;
          soma_produtos := F32.add (soma_produtos st) (F32.mul n p);
          soma_pesos := F32.add (soma_pesos st) p';
          reads := reads st ++ [ReadNota i; ReadPeso i; ReadPeso i] |}.

(** [for (...; i < count; i++) body] *)
Fixpoint media_loop (fuel : nat) (notas pesos : list F32.t) (count : Z)
  (st : media_state) : outcome media_state :=
  if var_i st <? count then
    match fuel with
    | O => OutOfFuel
    | S fuel' =>
        st' <- media_body notas pesos st ;;
        media_loop fuel' notas pesos count st'
    end
  else Done st.

(** The value returned, with the reads performed. *)
Definition calcular_media_ponderada (notas pesos : list F32.t) (count : Z)
  : outcome (F32.t * list access) :=
  if count <=? 0 then Done (F32.zero, [])    (* return 0.0f *)
  else
    st <- media_loop (Z.to_nat count) notas pesos count
            {| var_i := 0; soma_produtos := F32.zero;
               soma_pesos := F32.zero; reads := [] |} ;;
    if F32.eqb (soma_pesos st) F32.zero then Done (F32.zero, reads st)
    else Done (F32.div (soma_produtos st) (soma_pesos st), reads st).

(** The returned value alone. *)
Definition result {A B : Type} (r : outcome (A * B)) : outcome A :=
  x <- r ;; Done (fst x).

(** *** The contract, as the specification words it *)

(** [Σ scores[i] * weights[i]] and [Σ weights[i]] over [0 .. count-1],
    accumulated from [0.0f] from left to right in single precision. *)
Definition sum_products (scores weights : list F32.t) (count : Z) : F32.t :=
  fold_left (fun acc sw => F32.add acc (F32.mul (fst sw) (snd sw)))
    (combine (firstn (Z.to_nat count) scores) (firstn (Z.to_nat count) weights))
    F32.zero.

Definition sum_weights (weights : list F32.t) (count : Z) : F32.t :=
  fold_left F32.add (firstn (Z.to_nat count) weights) F32.zero.

Definition weighted_average (scores weights : list F32.t) (count : Z) : F32.t :=
  F32.div (sum_products scores weights count) (sum_weights weights count).

(** ** [comparar_desempenho] *)

Definition comparar_desempenho (a b : DesempenhoAluno) : Z :=
  if F32.ltb (media_final a) (media_final b) then 1        (* B before A *)
  else if F32.gtb (media_final a) (media_final b) then -1  (* A before B *)
  else 0.

(** ** The C library's [qsort] *)

(** [qsort(base, nmemb, size, compar)] on an array of [nmemb] elements:
    the array it leaves, and the calls it made to [compar], in order. *)
Definition qsort_fn : Type :=
  forall A : Type, (A -> A -> Z) -> list A -> list A * list (A * A).

(** What the C standard asks of [compar]: called on the elements of the
    array, its results define a total ordering of them. *)
Definition consistent {A : Type} (compar : A -> A -> Z) (l : list A) : Prop :=
  forall a b c, In a l -> In b l -> In c l ->
    Z.sgn (compar b a) = - Z.sgn (compar a b) /\
    (compar a b <= 0 -> compar b c <= 0 -> compar a c <= 0).

(** Ascending order according to [compar]. *)
Definition ascending {A : Type} (compar : A -> A -> Z) (l : list A) : Prop :=
  Sorted (fun a b => compar a b <= 0) l.

(** The contract of [qsort]: when [compar] is consistent on the
    elements of the array, it rearranges them among themselves and
    leaves them in ascending order according to it. The order in which
    elements that compare equal are left is unspecified, hence absent.
    When [compar] is not consistent the call is undefined: the contract
    says nothing of what [qsort] then leaves. *)
Record conforming (qsort : qsort_fn) : Prop := {
  qsort_permutes :
    forall A (compar : A -> A -> Z) (l : list A),
      consistent compar l -> Permutation l (fst (qsort A compar l));
  qsort_sorts :
    forall A (compar : A -> A -> Z) (l : list A),
      consistent compar l -> ascending compar (fst (qsort A compar l))
}.

(** Two implementations of the interface, both by insertion: an element
    is inserted in front of the elements that compare equal to it
    ([before_ties = true]), or behind them. *)
Fixpoint insert {A : Type} (before_ties : bool) (compar : A -> A -> Z)
  (x : A) (l : list A) : list A * list (A * A) :=
  match l with
  | [] => ([x], [])
  | y :: l' =>
      let c := compar x y in
      if (if before_ties then c <=? 0 else c <? 0)
      then (x :: y :: l', [(x, y)])
      else let (r, calls) := insert before_ties compar x l' in
           (y :: r, (x, y) :: calls)
  end.

Fixpoint insertion_sort {A : Type} (before_ties : bool) (compar : A -> A -> Z)
  (l : list A) : list A * list (A * A) :=
  match l with
  | [] => ([], [])
  | x :: l' =>
      let (s, calls1) := insertion_sort before_ties compar l' in
      let (r, calls2) := insert before_ties compar x s in
      (r, calls1 ++ calls2)
  end.

(** Keeps elements that compare equal in the order they had. *)
Definition qsort_stable : qsort_fn :=
  fun A compar l => insertion_sort true compar l.

(** Reverses the order of elements that compare equal. *)
Definition qsort_unstable : qsort_fn :=
  fun A compar l => insertion_sort false compar l.



(** ** [ordenar_por_desempenho] *)

(** [desempenhos] is [None] for a null pointer, and otherwise the array
    it points to, which holds [length arr] records. The call leaves the
    array as returned, after the listed calls to the comparator. *)
Definition ordenar_por_desempenho (qsort : qsort_fn)
  (desempenhos : option (list DesempenhoAluno)) (num_alunos : Z)
  : outcome (option (list DesempenhoAluno)
             * list (DesempenhoAluno * DesempenhoAluno)) :=
  match desempenhos with
  | None => Done (None, [])                        (* desempenhos == NULL *)
  | Some arr =>
      if num_alunos <=? 1 then Done (Some arr, []) (* || num_alunos <= 1 *)
      else if num_alunos <=? Z.of_nat (length arr) then
        let n := Z.to_nat num_alunos in
        let (sorted, calls) := qsort _ comparar_desempenho (firstn n arr) in
        Done (Some (sorted ++ skipn n arr), calls)
      else Undefined
  end.

(** ** Vocabulary of the properties *)

(** No score is a NaN. *)
Definition no_nan (l : list DesempenhoAluno) : Prop :=
  forall r, In r l -> F32.is_nan (media_final r) = false.

(** Among the first [n] records, each score is [>=] the next one. *)
Definition descending (l : list DesempenhoAluno) (n : Z) : Prop :=
  forall i a b, 0 <= i -> i + 1 < n ->
    index l i = Some a -> index l (i + 1) = Some b ->
    F32.geb (media_final a) (media_final b) = true.

(** Two sequences carry equal scores, position by position. *)
Definition same_scores (l1 l2 : list DesempenhoAluno) : Prop :=
  Forall2 (fun a b => F32.eqb (media_final a) (media_final b) = true) l1 l2.

(** Records whose scores are equal are the same record: there is no tie
    between two different records. *)
Definition no_ties (l : list DesempenhoAluno) : Prop :=
  forall a b, In a l -> In b l ->
    F32.eqb (media_final a) (media_final b) = true -> a = b.

(** The descending order of scores, on keys. *)
Definition key_ge (a b : DesempenhoAluno) : Prop :=
  F32.key_le (F32.key (media_final b)) (F32.key (media_final a)).

(** ** Test data *)

(** Two records tied at 5.0, in both orders. *)
Definition empate : list DesempenhoAluno :=
  [mkDesempenho 1 (F32.of_Z 5); mkDesempenho 2 (F32.of_Z 5)].
Definition empate_rev : list DesempenhoAluno :=
  [mkDesempenho 2 (F32.of_Z 5); mkDesempenho 1 (F32.of_Z 5)].


(** A record without a score, followed by one with a score. *)
Definition com_nan : list DesempenhoAluno :=
  [mkDesempenho 1 F32.nan; mkDesempenho 2 (F32.of_Z 1)].

(** The class of [main]'s test. *)
Definition turma : list DesempenhoAluno :=
  [ mkDesempenho 101 (F32.of_decimal 85 1);
    mkDesempenho 102 (F32.of_decimal 62 1);
    mkDesempenho 103 (F32.of_decimal 98 1);
    mkDesempenho 104 (F32.of_decimal 75 1) ].

Definition notas_teste : list F32.t :=
  [F32.of_decimal 75 1; F32.of_Z 9; F32.of_Z 6].
Definition pesos_teste : list F32.t :=
  [F32.of_Z 2; F32.of_Z 3; F32.of_Z 5].

(** ** Vocabulary of the further properties *)

(** The reads of [k] iterations of the loop from index [i] on: at each
    index, the mark, then the weight twice. *)
Fixpoint reads_range (i : Z) (k : nat) : list access :=
  match k with
  | O => []
  | S k' => ReadNota i :: ReadPeso i :: ReadPeso i :: reads_range (i + 1) k'
  end.

(** The index an access reads. *)
Definition access_index (a : access) : Z :=
  match a with ReadNota i => i | ReadPeso i => i end.

(** Either zero, [+0.0f] or [-0.0f]. *)
Definition is_zero (x : F32.t) : bool :=
  match x with S754_zero _ => true | _ => false end.

(** Among the first [n] records, each score is [>=] every later one. *)
Definition ranked (l : list DesempenhoAluno) (n : Z) : Prop :=
  forall i j a b, 0 <= i -> i < j -> j < n ->
    index l i = Some a -> index l j = Some b ->
    F32.geb (media_final a) (media_final b) = true.

(** The class of [main]'s test, already ranked, and in reverse order. *)
Definition turma_ordenada : list DesempenhoAluno :=
  [ mkDesempenho 103 (F32.of_decimal 98 1);
    mkDesempenho 101 (F32.of_decimal 85 1);
    mkDesempenho 104 (F32.of_decimal 75 1);
    mkDesempenho 102 (F32.of_decimal 62 1) ].

(** * Properties *)

(** ** The order of single-precision floats *)

Module F32Facts.

Import F32.

(** Case analysis on the comparison of two finite floats. *)
Ltac compare_cases :=
  repeat match goal with
    | |- context [Z.compare ?x ?y] => destruct (Z.compare_spec x y); subst
    | |- context [Pos.compare_cont Eq ?x ?y] =>
        change (Pos.compare_cont Eq x y) with (Pos.compare x y);
        destruct (Pos.compare_spec x y); subst
    end.

Ltac key_solve :=
  simpl; compare_cases; simpl;
  split; intros Hkey; try discriminate; try reflexivity; try lia;
  try (injection Hkey; intros; subst; lia);
  try (injection Hkey; intros; exfalso; lia).

Lemma key_le_refl k : key_le k k.
Proof. destruct k as [[a b] c]; simpl; lia. Qed.

Lemma key_le_trans k1 k2 k3 : key_le k1 k2 -> key_le k2 k3 -> key_le k1 k3.
Proof.
  destruct k1 as [[a1 a2] a3], k2 as [[b1 b2] b3], k3 as [[c1 c2] c3].
  simpl; lia.
Qed.

Lemma key_le_antisym k1 k2 : key_le k1 k2 -> key_le k2 k1 -> k1 = k2.
Proof.
  destruct k1 as [[a1 a2] a3], k2 as [[b1 b2] b3]; simpl; intros H1 H2.
  assert (a1 = b1 /\ a2 = b2 /\ a3 = b3) as (-> & -> & ->) by lia.
  reflexivity.
Qed.

Lemma key_le_total k1 k2 : key_le k1 k2 \/ key_le k2 k1.
Proof. destruct k1 as [[a1 a2] a3], k2 as [[b1 b2] b3]; simpl; lia. Qed.

Lemma key_le_dec k1 k2 : key_le k1 k2 \/ ~ key_le k1 k2.
Proof. destruct k1 as [[a1 a2] a3], k2 as [[b1 b2] b3]; simpl; lia. Qed.

Lemma leb_key x y :
  is_nan x = false -> is_nan y = false ->
  leb x y = true <-> key_le (key x) (key y).
Proof.
  unfold leb, SFleb.
  destruct x as [[]|[]| |[] mx ex]; destruct y as [[]|[]| |[] my ey];
    try discriminate; intros _ _; key_solve.
Qed.

Lemma ltb_key x y :
  is_nan x = false -> is_nan y = false ->
  ltb x y = true <-> ~ key_le (key y) (key x).
Proof.
  unfold ltb, SFltb.
  destruct x as [[]|[]| |[] mx ex]; destruct y as [[]|[]| |[] my ey];
    try discriminate; intros _ _; key_solve.
Qed.

Lemma eqb_key x y :
  is_nan x = false -> is_nan y = false ->
  eqb x y = true <-> key x = key y.
Proof.
  unfold eqb, SFeqb.
  destruct x as [[]|[]| |[] mx ex]; destruct y as [[]|[]| |[] my ey];
    try discriminate; intros _ _; key_solve.
Qed.

End F32Facts.

Section FloatComparisons.

Import F32 F32Facts.

Lemma ltb_not_nan x y :
  ltb x y = true -> is_nan x = false /\ is_nan y = false.
Proof. destruct x, y; simpl; intros H; try discriminate; auto. Qed.

Lemma eqb_not_nan x y :
  eqb x y = true -> is_nan x = false /\ is_nan y = false.
Proof. destruct x, y; simpl; intros H; try discriminate; auto. Qed.

Lemma nan_ltb x y :
  is_nan x = true \/ is_nan y = true -> ltb x y = false.
Proof.
  intros H. destruct (ltb x y) eqn:E; [|reflexivity].
  apply ltb_not_nan in E. destruct E as [Ex Ey].
  rewrite Ex, Ey in H. destruct H; discriminate.
Qed.

Lemma ltb_asym x y : ltb x y = true -> ltb y x = false.
Proof.
  intros H. destruct (ltb_not_nan _ _ H) as [Hx Hy].
  destruct (ltb y x) eqn:E; [|reflexivity].
  apply ltb_key in H; auto. apply ltb_key in E; auto.
  destruct (key_le_total (key x) (key y)); contradiction.
Qed.

Lemma eqb_ltb x y : eqb x y = true -> ltb x y = false /\ ltb y x = false.
Proof.
  intros H. destruct (eqb_not_nan _ _ H) as [Hx Hy].
  apply eqb_key in H; auto.
  split.
  - destruct (ltb x y) eqn:E; [|reflexivity].
    apply ltb_key in E; auto. rewrite H in E. destruct E. apply key_le_refl.
  - destruct (ltb y x) eqn:E; [|reflexivity].
    apply ltb_key in E; auto. rewrite H in E. destruct E. apply key_le_refl.
Qed.

(** On numbers, [x <= y] is [!(y < x)]. *)
Lemma leb_not_ltb x y :
  is_nan x = false -> is_nan y = false ->
  leb x y = true <-> ltb y x = false.
Proof.
  intros Hx Hy. rewrite leb_key by assumption. split.
  - intros H. destruct (ltb y x) eqn:E; [|reflexivity].
    apply ltb_key in E; auto. contradiction.
  - intros H. destruct (key_le_dec (key x) (key y)) as [|N]; [assumption|].
    apply ltb_key in N; auto. congruence.
Qed.

End FloatComparisons.

(** ** The comparator *)

Section Comparator.

Import F32 F32Facts.

Lemma comparar_range a b :
  comparar_desempenho a b = 1 \/ comparar_desempenho a b = -1
  \/ comparar_desempenho a b = 0.
Proof.
  unfold comparar_desempenho.
  destruct (ltb _ _); auto. destruct (gtb _ _); auto.
Qed.

Lemma comparar_pos a b :
  0 < comparar_desempenho a b <-> ltb (media_final a) (media_final b) = true.
Proof.
  unfold comparar_desempenho.
  destruct (ltb (media_final a) (media_final b)) eqn:E.
  - split; auto; lia.
  - destruct (gtb _ _); split; intros; try lia; discriminate.
Qed.

Lemma comparar_neg a b :
  comparar_desempenho a b < 0 <-> gtb (media_final a) (media_final b) = true.
Proof.
  unfold comparar_desempenho, gtb.
  destruct (ltb (media_final a) (media_final b)) eqn:E.
  - apply ltb_asym in E. unfold ltb in E. rewrite E. split; intros; try lia; discriminate.
  - destruct (SFltb _ _); split; intros; try lia; try discriminate; auto.
Qed.

Lemma comparar_nan a b :
  is_nan (media_final a) = true \/ is_nan (media_final b) = true ->
  comparar_desempenho a b = 0.
Proof.
  intros H. unfold comparar_desempenho, gtb.
  fold (ltb (media_final b) (media_final a)).
  rewrite !nan_ltb; tauto.
Qed.

Lemma comparar_eq a b :
  eqb (media_final a) (media_final b) = true -> comparar_desempenho a b = 0.
Proof.
  intros H. apply eqb_ltb in H. destruct H as [H1 H2].
  unfold comparar_desempenho, gtb. fold (ltb (media_final b) (media_final a)).
  now rewrite H1, H2.
Qed.

(** On numbers the comparator is the descending order of the keys. *)
Lemma comparar_key a b :
  is_nan (media_final a) = false -> is_nan (media_final b) = false ->
  comparar_desempenho a b <= 0 <->
  key_le (key (media_final b)) (key (media_final a)).
Proof.
  intros Ha Hb. rewrite <- leb_key by assumption.
  rewrite leb_not_ltb by assumption.
  pose proof (comparar_pos a b) as P.
  destruct (ltb (media_final a) (media_final b)); split; intros H.
  - assert (0 < comparar_desempenho a b) by (apply P; reflexivity). lia.
  - discriminate.
  - reflexivity.
  - destruct (Z_lt_le_dec 0 (comparar_desempenho a b)) as [L|L]; [|assumption].
    apply P in L. discriminate.
Qed.

Lemma comparar_sgn a b :
  Z.sgn (comparar_desempenho b a) = - Z.sgn (comparar_desempenho a b).
Proof.
  unfold comparar_desempenho, gtb.
  fold (ltb (media_final a) (media_final b)).
  fold (ltb (media_final b) (media_final a)).
  destruct (ltb (media_final a) (media_final b)) eqn:E.
  - rewrite (ltb_asym _ _ E). reflexivity.
  - destruct (ltb (media_final b) (media_final a)); reflexivity.
Qed.

(** Without a NaN among the scores, the comparator meets what [qsort]
    asks of it. *)
Lemma comparar_consistent l : no_nan l -> consistent comparar_desempenho l.
Proof.
  intros Hl a b c Ha Hb Hc. split.
  - apply comparar_sgn.
  - rewrite !comparar_key by (apply Hl; assumption).
    intros H1 H2. eapply key_le_trans; eassumption.
Qed.

End Comparator.

(** ** The implementations of [qsort] meet its contract *)

Section Insertion.

Context {A : Type} (before_ties : bool) (compar : A -> A -> Z).

Lemma insert_perm x l :
  Permutation (x :: l) (fst (insert before_ties compar x l)).
Proof.
  induction l as [|y l IH]; simpl.
  - reflexivity.
  - destruct (if before_ties then _ else _); simpl.
    + reflexivity.
    + destruct (insert before_ties compar x l) as [r calls]; simpl in *.
      rewrite perm_swap. now constructor.
Qed.

Lemma insertion_sort_perm l :
  Permutation l (fst (insertion_sort before_ties compar l)).
Proof.
  induction l as [|x l IH]; simpl.
  - reflexivity.
  - destruct (insertion_sort before_ties compar l) as [s calls1]; simpl in *.
    pose proof (insert_perm x s) as P.
    destruct (insert before_ties compar x s) as [r calls2]; simpl in *.
    rewrite <- P. now constructor.
Qed.

(** The test of [insert] puts [x] in front of [y] only if [x] may
    precede [y]; otherwise [y] may precede [x]. *)
Lemma insert_test_true x y :
  (if before_ties then compar x y <=? 0 else compar x y <? 0) = true ->
  compar x y <= 0.
Proof. destruct before_ties; lia. Qed.

Lemma insert_test_false x y :
  Z.sgn (compar y x) = - Z.sgn (compar x y) ->
  (if before_ties then compar x y <=? 0 else compar x y <? 0) = false ->
  compar y x <= 0.
Proof. destruct before_ties; lia. Qed.

Lemma insert_HdRel x y l :
  compar y x <= 0 ->
  HdRel (fun a b => compar a b <= 0) y l ->
  HdRel (fun a b => compar a b <= 0) y (fst (insert before_ties compar x l)).
Proof.
  intros Hyx H. destruct l as [|z l]; simpl.
  - now constructor.
  - destruct (if before_ties then _ else _); simpl.
    + now constructor.
    + destruct (insert before_ties compar x l); simpl.
      inversion H; subst. now constructor.
Qed.

Lemma insert_sorted x l :
  (forall y, In y l -> Z.sgn (compar y x) = - Z.sgn (compar x y)) ->
  ascending compar l ->
  ascending compar (fst (insert before_ties compar x l)).
Proof.
  unfold ascending. induction l as [|y l IH]; intros Hsgn Hs; simpl.
  - repeat constructor.
  - destruct (if before_ties then _ else _) eqn:T; simpl.
    + constructor; [assumption|]. constructor. eapply insert_test_true; eassumption.
    + inversion Hs as [|? ? Hs' Hd]; subst.
      assert (compar y x <= 0) as Hyx
        by (eapply insert_test_false; [apply Hsgn; now left | eassumption]).
      pose proof (insert_HdRel x y l Hyx Hd) as Hd'.
      assert (Sorted (fun a b => compar a b <= 0)
                (fst (insert before_ties compar x l))) as IH'
        by (apply IH; [intros; apply Hsgn; now right | assumption]).
      destruct (insert before_ties compar x l) as [r calls]; simpl in *.
      now constructor.
Qed.

Lemma insertion_sort_sorted l :
  consistent compar l ->
  ascending compar (fst (insertion_sort before_ties compar l)).
Proof.
  induction l as [|x l IH]; intros Hc; simpl.
  - constructor.
  - assert (consistent compar l) as Hc'.
    { intros a b c Ha Hb Hc0. apply Hc; now right. }
    specialize (IH Hc').
    pose proof (insertion_sort_perm l) as P.
    destruct (insertion_sort before_ties compar l) as [s calls1]; simpl in *.
    assert (ascending compar (fst (insert before_ties compar x s))) as Hs.
    { apply insert_sorted; [|assumption].
      intros y Hy.
      assert (In y (x :: l)) as Hy'
        by (right; eapply Permutation_in; [symmetry; exact P | exact Hy]).
      apply (Hc x y x); auto; now left. }
    destruct (insert before_ties compar x s) as [r calls2]; simpl in *.
    assumption.
Qed.

End Insertion.

Lemma qsort_stable_conforming : conforming qsort_stable.
Proof.
  split; intros; unfold qsort_stable.
  - apply insertion_sort_perm.
  - now apply insertion_sort_sorted.
Qed.



Lemma qsort_unstable_conforming : conforming qsort_unstable.
Proof.
  split; intros; unfold qsort_unstable.
  - apply insertion_sort_perm.
  - now apply insertion_sort_sorted.
Qed.

(** ** The weighted average *)

Section WeightedAverage.

Lemma skipn_firstn_cons {A : Type} (l : list A) (i c : nat) x :
  nth_error l i = Some x -> (i < c)%nat ->
  skipn i (firstn c l) = x :: skipn (S i) (firstn c l).
Proof.
  revert i c. induction l as [|y l IH]; intros i c Hx Hic.
  - destruct i; discriminate.
  - destruct c as [|c]; [lia|]. destruct i as [|i]; simpl in *.
    + now inversion Hx.
    + apply IH; [assumption | lia].
Qed.

Lemma slice_cons {A : Type} (l : list A) (i count : Z) :
  0 <= i < count -> count <= Z.of_nat (length l) ->
  exists x, index l i = Some x /\ slice l i count = x :: slice l (i + 1) count.
Proof.
  intros Hi Hc. unfold index, slice.
  destruct (Z.ltb_spec i 0); [lia|].
  destruct (nth_error l (Z.to_nat i)) as [x|] eqn:E.
  - exists x. split; [reflexivity|].
    replace (Z.to_nat (i + 1)) with (S (Z.to_nat i)) by lia.
    apply skipn_firstn_cons; [assumption | lia].
  - apply nth_error_None in E. lia.
Qed.

Lemma slice_nil {A : Type} (l : list A) (i count : Z) :
  0 <= i -> count <= i -> slice l i count = [].
Proof.
  intros Hi Hc. unfold slice. apply skipn_all2.
  rewrite length_firstn. lia.
Qed.

(** The loop, started at index [i] with enough fuel on arrays that hold
    [count] elements, runs to completion and leaves the two sums
    accumulated over the remaining indices. *)
Lemma media_loop_sums fuel notas pesos count : forall st,
  0 <= var_i st ->
  count - var_i st <= Z.of_nat fuel ->
  count <= Z.of_nat (length notas) ->
  count <= Z.of_nat (length pesos) ->
  exists st',
    media_loop fuel notas pesos count st = Done st' /\
    soma_produtos st' =
      fold_left (fun acc sw => F32.add acc (F32.mul (fst sw) (snd sw)))
        (combine (slice notas (var_i st) count) (slice pesos (var_i st) count))
        (soma_produtos st) /\
    soma_pesos st' =
      fold_left F32.add (slice pesos (var_i st) count) (soma_pesos st).
Proof.
  induction fuel as [|fuel IH]; intros st Hi Hfuel Hn Hp.
  - simpl. destruct (Z.ltb_spec (var_i st) count); [lia|].
    exists st. rewrite !slice_nil by lia. auto.
  - simpl. destruct (Z.ltb_spec (var_i st) count) as [Hlt|Hge].
    + destruct (slice_cons notas (var_i st) count) as (n & En & Sn); [lia|lia|].
      destruct (slice_cons pesos (var_i st) count) as (p & Ep & Sp); [lia|lia|].
      unfold media_body, read. rewrite En, Ep. simpl.
      match goal with
      | |- context [media_loop fuel notas pesos count ?s] =>
          destruct (IH s) as (st' & Hrun & Hsp & Hsw)
      end; simpl; try lia.
      exists st'. split; [assumption|].
      rewrite Sn, Sp. simpl in *. auto.
    + exists st. rewrite !slice_nil by lia. auto.
Qed.

Lemma media_loop_from_zero notas pesos count :
  0 < count ->
  count <= Z.of_nat (length notas) ->
  count <= Z.of_nat (length pesos) ->
  exists st',
    media_loop (Z.to_nat count) notas pesos count
      {| var_i := 0; soma_produtos := F32.zero;
         soma_pesos := F32.zero; reads := [] |} = Done st' /\
    soma_produtos st' = sum_products notas pesos count /\
    soma_pesos st' = sum_weights pesos count.
Proof.
  intros Hc Hn Hp.
  destruct (media_loop_sums (Z.to_nat count) notas pesos count
              {| var_i := 0; soma_produtos := F32.zero;
                 soma_pesos := F32.zero; reads := [] |})
    as (st' & Hrun & Hsp & Hsw); simpl; try lia.
  exists st'. split; [assumption|].
  unfold slice in *. simpl in *. auto.
Qed.

(** C1. For every [count > 0] and weights whose accumulated sum does
    not compare equal to zero, on arrays holding at least [count]
    elements, [calcular_media_ponderada] returns the quotient of
    [Σ notas[i] * pesos[i]] by [Σ pesos[i]], both sums accumulated in
    single precision from left to right over the indices
    [0 .. count-1]. *)
Theorem calcular_media_ponderada_weighted_average notas pesos count :
  0 < count ->
  count <= Z.of_nat (length notas) ->
  count <= Z.of_nat (length pesos) ->
  F32.eqb (sum_weights pesos count) F32.zero = false ->
  result (calcular_media_ponderada notas pesos count)
  = Done (weighted_average notas pesos count).
Proof.
  intros Hc Hn Hp Hnz. unfold calcular_media_ponderada.
  destruct (Z.leb_spec count 0); [lia|].
  destruct (media_loop_from_zero notas pesos count Hc Hn Hp)
    as (st' & -> & Hsp & Hsw).
  simpl. rewrite Hsw, Hnz, Hsp. reflexivity.
Qed.

(** C4. For every [count <= 0], whatever the two arrays,
    [calcular_media_ponderada] returns [0.0f] and reads no element of
    either array. *)
Theorem calcular_media_ponderada_count_nonpositive notas pesos count :
  count <= 0 ->
  calcular_media_ponderada notas pesos count = Done (F32.zero, []).
Proof.
  intros Hc. unfold calcular_media_ponderada.
  destruct (Z.leb_spec count 0); [reflexivity | lia].
Qed.

(** C5. For every [count > 0] and weights whose accumulated sum
    compares equal to zero, [calcular_media_ponderada] returns [0.0f],
    whatever the scores, on arrays holding at least [count]
    elements. *)
Theorem calcular_media_ponderada_zero_weights notas pesos count :
  0 < count ->
  count <= Z.of_nat (length notas) ->
  count <= Z.of_nat (length pesos) ->
  F32.eqb (sum_weights pesos count) F32.zero = true ->
  result (calcular_media_ponderada notas pesos count) = Done F32.zero.
Proof.
  intros Hc Hn Hp Hz. unfold calcular_media_ponderada.
  destruct (Z.leb_spec count 0); [lia|].
  destruct (media_loop_from_zero notas pesos count Hc Hn Hp)
    as (st' & -> & Hsp & Hsw).
  simpl. rewrite Hsw, Hz. reflexivity.
Qed.

End WeightedAverage.

(** ** Sorted sequences *)

Section SortedFacts.

Context {A : Type}.

(** Consecutive elements of a sorted list are related. *)
Lemma Sorted_consecutive (R : A -> A -> Prop) l : forall i a b,
  Sorted R l ->
  nth_error l i = Some a -> nth_error l (S i) = Some b -> R a b.
Proof.
  induction l as [|x l IH]; intros i a b Hs Ha Hb.
  - destruct i; discriminate.
  - inversion Hs as [|? ? Hs' Hd]; subst. destruct i as [|i]; simpl in *.
    + inversion Ha; subst. destruct l as [|y l]; [discriminate|].
      simpl in Hb. inversion Hb; subst. now inversion Hd.
    + eapply IH; eassumption.
Qed.

(** A relation that holds between the members of a list may replace
    another in its sortedness. *)
Lemma Sorted_impl_In (R R' : A -> A -> Prop) l :
  (forall a b, In a l -> In b l -> R a b -> R' a b) ->
  Sorted R l -> Sorted R' l.
Proof.
  induction l as [|x l IH]; intros Himp Hs.
  - constructor.
  - inversion Hs as [|? ? Hs' Hd]; subst. constructor.
    + apply IH; [|assumption]. intros a b Ha Hb. apply Himp; now right.
    + destruct Hd as [|y l' Hxy]; constructor.
      apply Himp; [now left | right; now left | assumption].
Qed.

(** Two sorted arrangements of the same elements are the same list,
    when no two different elements are related both ways. *)
Lemma StronglySorted_unique (R : A -> A -> Prop) l1 : forall l2,
  (forall a b, In a l1 -> In b l1 -> R a b -> R b a -> a = b) ->
  StronglySorted R l1 -> StronglySorted R l2 ->
  Permutation l1 l2 -> l1 = l2.
Proof.
  induction l1 as [|x l1 IH]; intros l2 Hanti S1 S2 P.
  - apply Permutation_nil in P. now subst.
  - destruct l2 as [|y l2].
    + apply Permutation_sym, Permutation_nil in P. discriminate.
    + inversion S1 as [|? ? S1' F1]; subst.
      inversion S2 as [|? ? S2' F2]; subst.
      assert (x = y) as ->.
      { assert (In x (y :: l2)) as Hx
          by (eapply Permutation_in; [exact P | now left]).
        assert (In y (x :: l1)) as Hy
          by (eapply Permutation_in; [symmetry; exact P | now left]).
        destruct Hx as [Hx|Hx]; [now subst|].
        destruct Hy as [Hy|Hy]; [now subst|].
        rewrite Forall_forall in F1, F2.
        apply Hanti; [now left | now right | now apply F1 | now apply F2]. }
      f_equal. apply IH; try assumption.
      * intros a b Ha Hb. apply Hanti; now right.
      * eapply Permutation_cons_inv; exact P.
Qed.

Lemma StronglySorted_map {B : Type} (f : A -> B) (R : B -> B -> Prop) l :
  StronglySorted (fun a b => R (f a) (f b)) l ->
  StronglySorted R (map f l).
Proof.
  induction 1 as [|x l Hs IH Hf]; simpl; constructor; auto.
  rewrite Forall_map. exact Hf.
Qed.

End SortedFacts.

(** ** The ranking *)

Section Ranking.

Import F32 F32Facts.

Variable qsort : qsort_fn.
Hypothesis qsort_ok : conforming qsort.

Lemma key_ge_trans a b c : key_ge a b -> key_ge b c -> key_ge a c.
Proof. unfold key_ge. intros H1 H2. eapply key_le_trans; eassumption. Qed.

(** What [qsort] leaves of the first [n] records: as many records,
    the same ones, and no NaN if there was none. *)
Lemma qsort_length (l : list DesempenhoAluno) :
  consistent comparar_desempenho l ->
  length (fst (qsort _ comparar_desempenho l)) = length l.
Proof. intros Hc. symmetry. now apply Permutation_length, qsort_ok. Qed.

Lemma qsort_no_nan (l : list DesempenhoAluno) :
  no_nan l -> no_nan (fst (qsort _ comparar_desempenho l)).
Proof.
  intros Hl r Hr. apply Hl.
  eapply Permutation_in; [symmetry; apply qsort_ok | exact Hr].
  now apply comparar_consistent.
Qed.

(** Without a NaN, [qsort] leaves the records in descending order of
    their keys. *)
Lemma qsort_key_sorted (l : list DesempenhoAluno) :
  no_nan l -> StronglySorted key_ge (fst (qsort _ comparar_desempenho l)).
Proof.
  intros Hl. apply Sorted_StronglySorted.
  - intros a b c. apply key_ge_trans.
  - apply Sorted_impl_In with (R := fun a b => comparar_desempenho a b <= 0).
    + intros a b Ha Hb Hab. unfold key_ge.
      apply comparar_key; try assumption; now apply (qsort_no_nan l Hl).
    + apply qsort_ok. now apply comparar_consistent.
Qed.

(** The call on an array that holds [num_alunos] records, [num_alunos]
    above 1. *)
Lemma ordenar_por_desempenho_qsort arr num_alunos :
  1 < num_alunos -> num_alunos <= Z.of_nat (length arr) ->
  ordenar_por_desempenho qsort (Some arr) num_alunos
  = Done (Some (fst (qsort _ comparar_desempenho
                       (firstn (Z.to_nat num_alunos) arr))
                ++ skipn (Z.to_nat num_alunos) arr),
          snd (qsort _ comparar_desempenho
                 (firstn (Z.to_nat num_alunos) arr))).
Proof.
  intros H1 H2. unfold ordenar_por_desempenho.
  destruct (Z.leb_spec num_alunos 1); [lia|].
  destruct (Z.leb_spec num_alunos (Z.of_nat (length arr))); [|lia].
  destruct (qsort _ _ _); reflexivity.
Qed.

Lemma ordenar_por_desempenho_guard desempenhos num_alunos :
  desempenhos = None \/ num_alunos <= 1 ->
  ordenar_por_desempenho qsort desempenhos num_alunos
  = Done (desempenhos, []).
Proof.
  intros H. unfold ordenar_por_desempenho.
  destruct desempenhos as [arr|]; [|reflexivity].
  destruct H as [H|H]; [discriminate|].
  destruct (Z.leb_spec num_alunos 1); [reflexivity | lia].
Qed.

(** The first [n] records and the rest of the array after the call. *)
Lemma firstn_sorted_prefix (arr : list DesempenhoAluno) (n : nat) :
  (n <= length arr)%nat ->
  consistent comparar_desempenho (firstn n arr) ->
  let s := fst (qsort _ comparar_desempenho (firstn n arr)) in
  length s = n /\
  firstn n (s ++ skipn n arr) = s /\
  skipn n (s ++ skipn n arr) = skipn n arr.
Proof.
  intros Hn Hc s.
  assert (length s = n) as Hlen
    by (unfold s; rewrite qsort_length, length_firstn by assumption; lia).
  split; [assumption|]. split.
  - rewrite firstn_app, Hlen, Nat.sub_diag. simpl.
    rewrite app_nil_r. rewrite <- Hlen. apply firstn_all.
  - rewrite skipn_app, Hlen, Nat.sub_diag. simpl.
    rewrite <- Hlen, skipn_all. reflexivity.
Qed.


(** C2, amended. For every non-empty sequence of [num_alunos] records
    none of whose scores is a NaN, the call returns and leaves the
    scores non-increasing: each of the first [num_alunos] records has
    a score [>=] that of the next. *)
Theorem ordenar_por_desempenho_descending arr num_alunos :
  1 <= num_alunos ->
  num_alunos <= Z.of_nat (length arr) ->
  no_nan (firstn (Z.to_nat num_alunos) arr) ->
  exists out calls,
    ordenar_por_desempenho qsort (Some arr) num_alunos
    = Done (Some out, calls) /\
    descending out num_alunos.
Proof.
  intros H0 Hn Hnan. destruct (Z_le_gt_dec num_alunos 1) as [H1|H1].
  - exists arr, []. rewrite ordenar_por_desempenho_guard by auto.
    split; [reflexivity|]. intros i a b Hi Hi'. lia.
  - rewrite ordenar_por_desempenho_qsort by lia.
    eexists _, _. split; [reflexivity|].
    set (n := Z.to_nat num_alunos) in *.
    destruct (firstn_sorted_prefix arr n) as (Hlen & _ & _);
      [lia | now apply comparar_consistent |].
    pose proof (qsort_key_sorted _ Hnan) as Hs.
    pose proof (qsort_no_nan _ Hnan) as Hnan'.
    set (s := fst (qsort _ comparar_desempenho (firstn n arr))) in *.
    intros i a b Hi Hi' Ha Hb. unfold index in Ha, Hb.
    destruct (Z.ltb_spec i 0); [lia|].
    destruct (Z.ltb_spec (i + 1) 0); [lia|].
    replace (Z.to_nat (i + 1)) with (S (Z.to_nat i)) in Hb by lia.
    rewrite nth_error_app1 in Ha by lia.
    rewrite nth_error_app1 in Hb by lia.
    assert (key_ge a b) as Hab
      by (eapply Sorted_consecutive;
          [apply StronglySorted_Sorted; exact Hs | exact Ha | exact Hb]).
    unfold geb. fold (leb (media_final b) (media_final a)).
    apply leb_key; try assumption;
      apply Hnan'; eapply nth_error_In; eassumption.
Qed.

Lemma eqb_refl x : is_nan x = false -> eqb x x = true.
Proof. intros Hx. now apply eqb_key. Qed.

Lemma same_scores_refl l : no_nan l -> same_scores l l.
Proof.
  unfold same_scores. induction l as [|x l IH]; intros Hl; constructor.
  - apply eqb_refl, Hl. now left.
  - apply IH. intros r Hr. apply Hl. now right.
Qed.

Lemma same_scores_of_keys l1 : forall l2,
  no_nan l1 -> no_nan l2 ->
  map (fun r => key (media_final r)) l1 = map (fun r => key (media_final r)) l2 ->
  same_scores l1 l2.
Proof.
  unfold same_scores.
  induction l1 as [|x l1 IH]; intros [|y l2] H1 H2 E; try discriminate.
  - constructor.
  - simpl in E. injection E as Exy E. constructor.
    + apply eqb_key; [apply H1; now left | apply H2; now left | assumption].
    + apply IH; try assumption; intros r Hr; [apply H1 | apply H2]; now right.
Qed.

(** C9, amended. For every sequence of [num_alunos] records none of
    whose scores is a NaN, a second call on what a first call left
    returns and leaves the same scores at the same positions, and the
    rest of the array untouched; and when no two different records
    are tied, it leaves the very same sequence. Which of several tied
    records comes first is left to [qsort], call after call. *)
Theorem ordenar_por_desempenho_twice arr num_alunos :
  num_alunos <= Z.of_nat (length arr) ->
  no_nan (firstn (Z.to_nat num_alunos) arr) ->
  exists out1 calls1 out2 calls2,
    ordenar_por_desempenho qsort (Some arr) num_alunos
    = Done (Some out1, calls1) /\
    ordenar_por_desempenho qsort (Some out1) num_alunos
    = Done (Some out2, calls2) /\
    same_scores (firstn (Z.to_nat num_alunos) out1)
                (firstn (Z.to_nat num_alunos) out2) /\
    skipn (Z.to_nat num_alunos) out2 = skipn (Z.to_nat num_alunos) out1 /\
    (no_ties (firstn (Z.to_nat num_alunos) arr) -> out2 = out1).
Proof.
  intros Hn Hnan. destruct (Z_le_gt_dec num_alunos 1) as [H1|H1].
  - exists arr, [], arr, []. rewrite ordenar_por_desempenho_guard by auto.
    repeat split; auto. now apply same_scores_refl.
  - set (n := Z.to_nat num_alunos) in *.
    destruct (firstn_sorted_prefix arr n) as (Hlen & Hfst & Hskip);
      [lia | now apply comparar_consistent |].
    pose proof (qsort_key_sorted _ Hnan) as Hs1.
    pose proof (qsort_no_nan _ Hnan) as Hnan1.
    pose proof (qsort_permutes _ qsort_ok _ comparar_desempenho (firstn n arr)
                  (comparar_consistent _ Hnan)) as P1.
    set (s1 := fst (qsort _ comparar_desempenho (firstn n arr))) in *.
    set (out1 := s1 ++ skipn n arr) in *.
    assert (Z.of_nat (length out1) = Z.of_nat (length arr)) as Hlen1.
    { unfold out1. rewrite length_app, length_skipn. lia. }
    destruct (firstn_sorted_prefix out1 n) as (Hlen' & Hfst' & Hskip');
      [lia | rewrite Hfst; now apply comparar_consistent |].
    rewrite Hfst in Hfst', Hskip', Hlen'. rewrite Hskip in Hfst', Hskip'.
    pose proof (qsort_key_sorted _ Hnan1) as Hs2.
    pose proof (qsort_no_nan _ Hnan1) as Hnan2.
    pose proof (qsort_permutes _ qsort_ok _ comparar_desempenho s1
                  (comparar_consistent _ Hnan1)) as P2.
    set (s2 := fst (qsort _ comparar_desempenho s1)) in *.
    exists out1, (snd (qsort _ comparar_desempenho (firstn n arr))),
      (s2 ++ skipn n arr), (snd (qsort _ comparar_desempenho s1)).
    split; [apply ordenar_por_desempenho_qsort; lia|].
    split.
    { rewrite ordenar_por_desempenho_qsort by lia.
      fold n. rewrite Hfst, Hskip. reflexivity. }
    rewrite Hfst, Hfst', Hskip, Hskip'.
    split; [|split; [reflexivity|]].
    + apply same_scores_of_keys; try assumption.
      apply StronglySorted_unique with (R := fun k1 k2 => key_le k2 k1).
      * intros k1 k2 _ _ K1 K2. now apply key_le_antisym.
      * apply StronglySorted_map with (R := fun k1 k2 => key_le k2 k1). exact Hs1.
      * apply StronglySorted_map with (R := fun k1 k2 => key_le k2 k1). exact Hs2.
      * now apply Permutation_map.
    + intros Hties. unfold out1. f_equal. symmetry.
      apply StronglySorted_unique with (R := key_ge); try assumption.
      intros a b Ha Hb Kab Kba.
      assert (In a (firstn n arr)) as Ha'
        by (eapply Permutation_in; [symmetry; exact P1 | exact Ha]).
      assert (In b (firstn n arr)) as Hb'
        by (eapply Permutation_in; [symmetry; exact P1 | exact Hb]).
      apply Hties; try assumption.
      apply eqb_key; [now apply Hnan | now apply Hnan |].
      now apply key_le_antisym.
Qed.

End Ranking.


(** ** The guards of the ranking *)

Section Guards.

Variable qsort : qsort_fn.

(** C7. On a sequence of zero or one record the call returns at once:
    the sequence is left exactly as it was and the comparator is not
    called even once. *)
Theorem ordenar_por_desempenho_trivial desempenhos num_alunos :
  0 <= num_alunos <= 1 ->
  ordenar_por_desempenho qsort desempenhos num_alunos
  = Done (desempenhos, []).
Proof. intros H. apply ordenar_por_desempenho_guard. lia. Qed.

(** C8, amended. The call has two guards, not one: a null pointer, and
    a length of 1 or less, negative lengths included. Either makes the
    call a defined no-op: the array, if any, is left as it was and the
    comparator is not called. *)
Theorem ordenar_por_desempenho_guards desempenhos num_alunos :
  desempenhos = None \/ num_alunos <= 1 ->
  ordenar_por_desempenho qsort desempenhos num_alunos
  = Done (desempenhos, []).
Proof.
  intros [->|H].
  - reflexivity.
  - unfold ordenar_por_desempenho. destruct desempenhos as [arr|].
    + destruct (Z.leb_spec num_alunos 1); [reflexivity | lia].
    + reflexivity.
Qed.

End Guards.

(** ** The comparator, claim by claim *)

Section ComparatorClaims.

Import F32.

(** C6. The comparator returns a negative value exactly when the score
    of [a] is greater than that of [b], a positive value exactly when
    it is less, and 0 when the two scores are equal; whatever the
    identifiers of the two records, the result is the same. *)
Theorem comparar_desempenho_order a b :
  (comparar_desempenho a b < 0 <->
   gtb (media_final a) (media_final b) = true) /\
  (0 < comparar_desempenho a b <->
   ltb (media_final a) (media_final b) = true) /\
  (eqb (media_final a) (media_final b) = true ->
   comparar_desempenho a b = 0) /\
  (forall ida idb,
     comparar_desempenho (mkDesempenho ida (media_final a))
                         (mkDesempenho idb (media_final b))
     = comparar_desempenho a b).
Proof.
  split; [apply comparar_neg|].
  split; [apply comparar_pos|].
  split; [apply comparar_eq|].
  reflexivity.
Qed.

Lemma HdRel_nan x l :
  is_nan (media_final x) = true ->
  HdRel (fun a b => comparar_desempenho a b <= 0) x l.
Proof.
  intros Hx. destruct l as [|y l]; constructor.
  rewrite comparar_nan by auto. lia.
Qed.

(** C10. When the score of either record is a NaN the comparator
    returns 0: a record with a NaN score compares equal to every
    record. The order the comparator defines therefore leaves the place
    of such a record free: put anywhere in a sequence that is in
    ascending order for the comparator, it leaves the sequence in
    ascending order for the comparator. *)
Theorem comparar_desempenho_nan :
  (forall a b,
     is_nan (media_final a) = true \/ is_nan (media_final b) = true ->
     comparar_desempenho a b = 0) /\
  (forall x l1 l2,
     is_nan (media_final x) = true ->
     ascending comparar_desempenho (l1 ++ l2) ->
     ascending comparar_desempenho (l1 ++ x :: l2)).
Proof.
  split; [apply comparar_nan|].
  unfold ascending. intros x l1 l2 Hx.
  induction l1 as [|a l1 IH]; simpl; intros Hs.
  - constructor; [assumption | now apply HdRel_nan].
  - inversion Hs as [|? ? Hs' Hd]; subst. constructor; [now apply IH|].
    destruct l1 as [|a' l1]; simpl in *.
    + constructor. rewrite comparar_nan by auto. lia.
    + inversion Hd; subst. now constructor.
Qed.

End ComparatorClaims.

(** ** The claims on concrete inputs *)

(** The two tests of [main]: the weighted average of the three marks is
    the float nearest to 7.2, and the class is ranked 103, 101, 104,
    102, by either implementation of [qsort]. *)
Example main_media_ponderada :
  result (calcular_media_ponderada notas_teste pesos_teste 3)
  = Done (F32.of_decimal 72 1).
Proof. reflexivity. Qed.

Example main_ordenacao :
  map id_aluno turma = [101; 102; 103; 104] /\
  (exists out, result (ordenar_por_desempenho qsort_stable (Some turma) 4)
               = Done (Some out) /\ map id_aluno out = [103; 101; 104; 102]) /\
  (exists out, result (ordenar_por_desempenho qsort_unstable (Some turma) 4)
               = Done (Some out) /\ map id_aluno out = [103; 101; 104; 102]).
Proof.
  split; [reflexivity|]. split; eexists; split; reflexivity.
Qed.

(** Where a record without a score ends up depends on the [qsort] at
    hand: last with one, first with the other. *)
Example nan_position_depends_on_qsort :
  map id_aluno (rev com_nan) = [2; 1] /\
  result (ordenar_por_desempenho qsort_stable (Some (rev com_nan)) 2)
  = Done (Some (rev com_nan)) /\
  result (ordenar_por_desempenho qsort_unstable (Some (rev com_nan)) 2)
  = Done (Some com_nan).
Proof. repeat split; reflexivity. Qed.

Lemma no_nan_turma : no_nan (firstn (Z.to_nat 4) turma).
Proof.
  intros r Hr. simpl in Hr.
  destruct Hr as [<-|[<-|[<-|[<-|[]]]]]; reflexivity.
Defined.

(** C1 on the marks of [main]. *)
Lemma calcular_media_ponderada_weighted_average_witness :
  0 < 3 /\
  3 <= Z.of_nat (length notas_teste) /\
  3 <= Z.of_nat (length pesos_teste) /\
  F32.eqb (sum_weights pesos_teste 3) F32.zero = false /\
  result (calcular_media_ponderada notas_teste pesos_teste 3)
  = Done (weighted_average notas_teste pesos_teste 3).
Proof.
  assert (0 < 3) as H0 by lia.
  assert (3 <= Z.of_nat (length notas_teste)) as H1 by (simpl; lia).
  assert (3 <= Z.of_nat (length pesos_teste)) as H2 by (simpl; lia).
  assert (F32.eqb (sum_weights pesos_teste 3) F32.zero = false) as H3
    by reflexivity.
  split; [assumption|]. split; [assumption|].
  split; [assumption|]. split; [assumption|].
  exact (calcular_media_ponderada_weighted_average
           notas_teste pesos_teste 3 H0 H1 H2 H3).
Defined.

(** C4 on a negative count and arrays without elements. *)
Lemma calcular_media_ponderada_count_nonpositive_witness :
  -3 <= 0 /\
  calcular_media_ponderada [] [] (-3) = Done (F32.zero, []).
Proof.
  assert (-3 <= 0) as H by lia.
  split; [assumption|].
  exact (calcular_media_ponderada_count_nonpositive [] [] (-3) H).
Defined.

(** C5 on the weights 2 and -2. *)
Lemma calcular_media_ponderada_zero_weights_witness :
  0 < 2 /\
  2 <= Z.of_nat (length notas_teste) /\
  2 <= Z.of_nat (length [F32.of_Z 2; F32.of_Z (-2)]) /\
  F32.eqb (sum_weights [F32.of_Z 2; F32.of_Z (-2)] 2) F32.zero = true /\
  result (calcular_media_ponderada notas_teste [F32.of_Z 2; F32.of_Z (-2)] 2)
  = Done F32.zero.
Proof.
  assert (0 < 2) as H0 by lia.
  assert (2 <= Z.of_nat (length notas_teste)) as H1 by (simpl; lia).
  assert (2 <= Z.of_nat (length [F32.of_Z 2; F32.of_Z (-2)])) as H2
    by (simpl; lia).
  assert (F32.eqb (sum_weights [F32.of_Z 2; F32.of_Z (-2)] 2) F32.zero = true)
    as H3 by reflexivity.
  split; [assumption|]. split; [assumption|].
  split; [assumption|]. split; [assumption|].
  exact (calcular_media_ponderada_zero_weights
           notas_teste [F32.of_Z 2; F32.of_Z (-2)] 2 H0 H1 H2 H3).
Defined.

(** C2: on a record without a score followed by one with a score, the
    call returns, with either [qsort], and the two scores it leaves are
    not non-increasing: no comparison with a NaN holds. *)
Lemma ordenar_por_desempenho_nan_not_descending :
  result (ordenar_por_desempenho qsort_stable (Some com_nan) 2)
  = Done (Some com_nan) /\
  ~ descending com_nan 2 /\
  result (ordenar_por_desempenho qsort_unstable (Some com_nan) 2)
  = Done (Some (rev com_nan)) /\
  ~ descending (rev com_nan) 2.
Proof.
  split; [reflexivity|]. split; [|split; [reflexivity|]].
  - intros H.
    specialize (H 0 _ _ (Z.le_refl 0) eq_refl eq_refl eq_refl).
    discriminate H.
  - intros H.
    specialize (H 0 _ _ (Z.le_refl 0) eq_refl eq_refl eq_refl).
    discriminate H.
Qed.

(** On [com_nan] every comparison returns 0, so the comparator is
    consistent and the call is within the contract of [qsort]. *)
Lemma consistent_com_nan :
  consistent comparar_desempenho (firstn (Z.to_nat 2) com_nan).
Proof.
  intros a b c Ha Hb Hc. split; [apply comparar_sgn|]. intros _ _.
  simpl in Ha, Hc.
  destruct Ha as [<-|[<-|[]]]; destruct Hc as [<-|[<-|[]]];
    vm_compute; discriminate.
Qed.

(** Whatever the [qsort], provided it meets its contract, the call on
    [com_nan] returns and leaves two scores that are not
    non-increasing. *)
Lemma ordenar_por_desempenho_nan_any_qsort qsort :
  conforming qsort ->
  exists out calls,
    ordenar_por_desempenho qsort (Some com_nan) 2 = Done (Some out, calls) /\
    ~ descending out 2.
Proof.
  intros Hq. rewrite ordenar_por_desempenho_qsort by (simpl; lia).
  eexists _, _. split; [reflexivity|].
  pose proof (qsort_permutes _ Hq _ comparar_desempenho
                (firstn (Z.to_nat 2) com_nan) consistent_com_nan) as P.
  apply Permutation_length_2_inv in P.
  destruct P as [-> | ->]; simpl; intros H;
    specialize (H 0 _ _ (Z.le_refl 0) eq_refl eq_refl eq_refl);
    discriminate H.
Qed.

(** C2, amended, on the class of [main]. *)
Lemma ordenar_por_desempenho_descending_witness :
  conforming qsort_stable /\
  1 <= 4 /\
  4 <= Z.of_nat (length turma) /\
  no_nan (firstn (Z.to_nat 4) turma) /\
  exists out calls,
    ordenar_por_desempenho qsort_stable (Some turma) 4
    = Done (Some out, calls) /\
    descending out 4.
Proof.
  assert (1 <= 4) as H0 by lia.
  assert (4 <= Z.of_nat (length turma)) as H1 by (simpl; lia).
  split; [apply qsort_stable_conforming|].
  split; [assumption|]. split; [assumption|].
  split; [apply no_nan_turma|].
  exact (ordenar_por_desempenho_descending qsort_stable
           qsort_stable_conforming turma 4 H0 H1 no_nan_turma).
Defined.



(** C7 on the first record of the class. *)
Lemma ordenar_por_desempenho_trivial_witness :
  0 <= 1 <= 1 /\
  ordenar_por_desempenho qsort_stable (Some (firstn 1 turma)) 1
  = Done (Some (firstn 1 turma), []).
Proof.
  assert (0 <= 1 <= 1) as H by lia.
  split; [assumption|].
  exact (ordenar_por_desempenho_trivial qsort_stable
           (Some (firstn 1 turma)) 1 H).
Defined.

(** C8: a null pointer with a length of 4, and a negative length, are
    both defined no-ops, not undefined behaviour. *)
Lemma ordenar_por_desempenho_null_and_negative_defined :
  ordenar_por_desempenho qsort_stable None 4 = Done (None, []) /\
  ordenar_por_desempenho qsort_stable None 4 <> Undefined /\
  ordenar_por_desempenho qsort_stable (Some turma) (-1)
  = Done (Some turma, []) /\
  ordenar_por_desempenho qsort_stable (Some turma) (-1) <> Undefined.
Proof. repeat split; try reflexivity; discriminate. Qed.

(** C8, amended, on a null pointer with a length of 4 and on the class
    of [main] with a length of -1. *)
Lemma ordenar_por_desempenho_guards_witness :
  (@None (list DesempenhoAluno) = None \/ 4 <= 1) /\
  ordenar_por_desempenho qsort_stable None 4 = Done (None, []) /\
  (Some turma = None \/ -1 <= 1) /\
  ordenar_por_desempenho qsort_stable (Some turma) (-1)
  = Done (Some turma, []).
Proof.
  assert (@None (list DesempenhoAluno) = None \/ 4 <= 1) as H
    by (left; reflexivity).
  assert (Some turma = None \/ -1 <= 1) as H' by (right; lia).
  split; [assumption|].
  split; [exact (ordenar_por_desempenho_guards qsort_stable None 4 H)|].
  split; [assumption|].
  exact (ordenar_por_desempenho_guards qsort_stable (Some turma) (-1) H').
Defined.

(** C9: with a [qsort] that meets its contract, a second call undoes
    what the first did to two tied records. *)
Lemma ordenar_por_desempenho_not_idempotent :
  conforming qsort_unstable /\
  result (ordenar_por_desempenho qsort_unstable (Some empate) 2)
  = Done (Some empate_rev) /\
  result (ordenar_por_desempenho qsort_unstable (Some empate_rev) 2)
  = Done (Some empate) /\
  empate <> empate_rev.
Proof.
  split; [apply qsort_unstable_conforming|].
  repeat split; try reflexivity. discriminate.
Qed.

(** C9, amended, on the class of [main]. *)
Lemma ordenar_por_desempenho_twice_witness :
  conforming qsort_unstable /\
  4 <= Z.of_nat (length turma) /\
  no_nan (firstn (Z.to_nat 4) turma) /\
  exists out1 calls1 out2 calls2,
    ordenar_por_desempenho qsort_unstable (Some turma) 4
    = Done (Some out1, calls1) /\
    ordenar_por_desempenho qsort_unstable (Some out1) 4
    = Done (Some out2, calls2) /\
    same_scores (firstn (Z.to_nat 4) out1) (firstn (Z.to_nat 4) out2) /\
    skipn (Z.to_nat 4) out2 = skipn (Z.to_nat 4) out1 /\
    (no_ties (firstn (Z.to_nat 4) turma) -> out2 = out1).
Proof.
  assert (4 <= Z.of_nat (length turma)) as H1 by (simpl; lia).
  split; [apply qsort_unstable_conforming|]. split; [assumption|].
  split; [apply no_nan_turma|].
  exact (ordenar_por_desempenho_twice qsort_unstable
           qsort_unstable_conforming turma 4 H1 no_nan_turma).
Defined.

(** C6 on two records with equal scores. *)
Lemma comparar_desempenho_order_witness :
  F32.eqb (F32.of_Z 5) (F32.of_Z 5) = true /\
  comparar_desempenho (mkDesempenho 1 (F32.of_Z 5)) (mkDesempenho 2 (F32.of_Z 5))
  = 0.
Proof.
  assert (F32.eqb (F32.of_Z 5) (F32.of_Z 5) = true) as H by reflexivity.
  split; [assumption|].
  exact (proj1 (proj2 (proj2 (comparar_desempenho_order
                  (mkDesempenho 1 (F32.of_Z 5)) (mkDesempenho 2 (F32.of_Z 5)))))
           H).
Defined.

(** C10 on a record without a score, against a record of the class and
    put in the middle of the ranked class. *)
Lemma comparar_desempenho_nan_witness :
  F32.is_nan (media_final (mkDesempenho 1 F32.nan)) = true /\
  comparar_desempenho (mkDesempenho 1 F32.nan) (mkDesempenho 101 (F32.of_decimal 85 1))
  = 0 /\
  ascending comparar_desempenho
    ([mkDesempenho 103 (F32.of_decimal 98 1)] ++
     [mkDesempenho 102 (F32.of_decimal 62 1)]) /\
  ascending comparar_desempenho
    ([mkDesempenho 103 (F32.of_decimal 98 1)] ++
     mkDesempenho 1 F32.nan :: [mkDesempenho 102 (F32.of_decimal 62 1)]).
Proof.
  assert (F32.is_nan (media_final (mkDesempenho 1 F32.nan)) = true) as H
    by reflexivity.
  assert (ascending comparar_desempenho
            ([mkDesempenho 103 (F32.of_decimal 98 1)] ++
             [mkDesempenho 102 (F32.of_decimal 62 1)])) as Hs.
  { repeat constructor. vm_compute. discriminate. }
  split; [assumption|]. split; [|split; [assumption|]].
  - exact (proj1 comparar_desempenho_nan _ _ (or_introl H)).
  - exact (proj2 comparar_desempenho_nan _ _ _ H Hs).
Defined.


(** * Further properties *)

(** ** The weighted average: bounds, reads and special values *)

Section WeightedAverageRun.

Lemma media_loop_reads fuel notas pesos count : forall st,
  0 <= var_i st ->
  count - var_i st <= Z.of_nat fuel ->
  count <= Z.of_nat (length notas) ->
  count <= Z.of_nat (length pesos) ->
  exists st',
    media_loop fuel notas pesos count st = Done st' /\
    reads st' = reads st
                ++ reads_range (var_i st) (Z.to_nat (count - var_i st)).
Proof.
  induction fuel as [|fuel IH]; intros st Hi Hfuel Hn Hp.
  - simpl. destruct (Z.ltb_spec (var_i st) count); [lia|].
    exists st. replace (Z.to_nat (count - var_i st)) with O by lia.
    simpl. now rewrite app_nil_r.
  - simpl. destruct (Z.ltb_spec (var_i st) count) as [Hlt|Hge].
    + destruct (slice_cons notas (var_i st) count) as (n & En & _); [lia|lia|].
      destruct (slice_cons pesos (var_i st) count) as (p & Ep & _); [lia|lia|].
      unfold media_body, read. rewrite En, Ep. simpl.
      match goal with
      | |- context [media_loop fuel notas pesos count ?s] =>
          destruct (IH s) as (st' & Hrun & Hr)
      end; simpl; try lia.
      exists st'. split; [assumption|]. rewrite Hr. simpl.
      replace (Z.to_nat (count - var_i st))
        with (S (Z.to_nat (count - (var_i st + 1)))) by lia.
      simpl. rewrite <- app_assoc. reflexivity.
    + exists st. replace (Z.to_nat (count - var_i st)) with O by lia.
      simpl. now rewrite app_nil_r.
Qed.

(** The whole call on arrays that hold [count] elements. *)
Lemma calcular_media_ponderada_run notas pesos count :
  0 < count ->
  count <= Z.of_nat (length notas) ->
  count <= Z.of_nat (length pesos) ->
  calcular_media_ponderada notas pesos count
  = Done (if F32.eqb (sum_weights pesos count) F32.zero then F32.zero
          else weighted_average notas pesos count,
          reads_range 0 (Z.to_nat count)).
Proof.
  intros Hc Hn Hp. unfold calcular_media_ponderada.
  destruct (Z.leb_spec count 0); [lia|].
  destruct (media_loop_from_zero notas pesos count Hc Hn Hp)
    as (st' & Hrun & Hsp & Hsw).
  destruct (media_loop_reads (Z.to_nat count) notas pesos count
              {| var_i := 0; soma_produtos := F32.zero;
                 soma_pesos := F32.zero; reads := [] |})
    as (st'' & Hrun' & Hr); simpl; try lia.
  rewrite Hrun in Hrun'. injection Hrun' as <-.
  rewrite Hrun. simpl in *. rewrite Hsw, Hsp, Hr.
  replace (count - 0) with count by lia.
  unfold weighted_average. destruct (F32.eqb _ _); reflexivity.
Qed.

Lemma calcular_media_ponderada_count_nonpositive_eq notas pesos count :
  count <= 0 ->
  calcular_media_ponderada notas pesos count = Done (F32.zero, []).
Proof.
  intros Hc. unfold calcular_media_ponderada.
  destruct (Z.leb_spec count 0); [reflexivity | lia].
Qed.

(** The loop on an array that is too short reads past its end. *)
Lemma media_loop_short fuel notas pesos count : forall st,
  0 <= var_i st ->
  count - var_i st <= Z.of_nat fuel ->
  var_i st <= Z.of_nat (length notas) ->
  var_i st <= Z.of_nat (length pesos) ->
  Z.of_nat (length notas) < count \/ Z.of_nat (length pesos) < count ->
  media_loop fuel notas pesos count st = Undefined.
Proof.
  induction fuel as [|fuel IH]; intros st Hi Hfuel Hn Hp Hshort.
  - simpl. destruct (Z.ltb_spec (var_i st) count); lia.
  - simpl. destruct (Z.ltb_spec (var_i st) count) as [Hlt|Hge]; [|lia].
    unfold media_body, read, index.
    destruct (Z.ltb_spec (var_i st) 0); [lia|].
    destruct (nth_error notas (Z.to_nat (var_i st))) as [n|] eqn:En;
      [|reflexivity].
    destruct (nth_error pesos (Z.to_nat (var_i st))) as [p|] eqn:Ep;
      [|reflexivity].
    simpl.
    assert (Z.to_nat (var_i st) < length notas)%nat
      by (apply nth_error_Some; congruence).
    assert (Z.to_nat (var_i st) < length pesos)%nat
      by (apply nth_error_Some; congruence).
    apply IH; simpl; lia.
Qed.

(** X1. The call has undefined behaviour exactly when [count] is
    positive and exceeds the number of elements of one of the two
    arrays; in every other case it returns a value. *)
Theorem calcular_media_ponderada_undefined_iff notas pesos count :
  (calcular_media_ponderada notas pesos count = Undefined <->
   0 < count /\
   (Z.of_nat (length notas) < count \/ Z.of_nat (length pesos) < count)) /\
  (calcular_media_ponderada notas pesos count <> Undefined ->
   exists v rs, calcular_media_ponderada notas pesos count = Done (v, rs)).
Proof.
  destruct (Z_le_gt_dec count 0) as [Hc|Hc].
  - rewrite calcular_media_ponderada_count_nonpositive_eq by assumption.
    split; [split; [discriminate | lia]|]. intros _. eauto.
  - destruct (Z_le_gt_dec count (Z.of_nat (length notas))) as [Hn|Hn];
      [destruct (Z_le_gt_dec count (Z.of_nat (length pesos))) as [Hp|Hp]|].
    + rewrite calcular_media_ponderada_run by lia.
      split; [split; [discriminate | lia]|]. intros _. eauto.
    + assert (calcular_media_ponderada notas pesos count = Undefined) as E.
      { unfold calcular_media_ponderada.
        destruct (Z.leb_spec count 0); [lia|].
        rewrite media_loop_short; simpl; try lia. reflexivity. }
      rewrite E. split; [split; [lia | reflexivity]|]. congruence.
    + assert (calcular_media_ponderada notas pesos count = Undefined) as E.
      { unfold calcular_media_ponderada.
        destruct (Z.leb_spec count 0); [lia|].
        rewrite media_loop_short; simpl; try lia. reflexivity. }
      rewrite E. split; [split; [lia | reflexivity]|]. congruence.
Qed.

Lemma reads_range_spec i k :
  Forall (fun a => i <= access_index a < i + Z.of_nat k) (reads_range i k) /\
  length (reads_range i k) = (3 * k)%nat.
Proof.
  revert i. induction k as [|k IH]; intros i; simpl.
  - split; [constructor | reflexivity].
  - destruct (IH (i + 1)) as [F L]. split.
    + repeat (constructor; [simpl; lia|]).
      eapply Forall_impl; [|exact F]. simpl. intros a Ha. lia.
    + rewrite L. lia.
Qed.

(** X2. On arrays that hold [count] elements the call returns after
    [3 * count] reads (none for [count <= 0]), and never reads an
    element outside the indices [0 .. count-1]. *)
Theorem calcular_media_ponderada_reads_in_bounds notas pesos count :
  count <= Z.of_nat (length notas) ->
  count <= Z.of_nat (length pesos) ->
  exists v rs,
    calcular_media_ponderada notas pesos count = Done (v, rs) /\
    Forall (fun a => 0 <= access_index a < count) rs /\
    Z.of_nat (length rs) = 3 * Z.max 0 count.
Proof.
  intros Hn Hp. destruct (Z_le_gt_dec count 0) as [Hc|Hc].
  - rewrite calcular_media_ponderada_count_nonpositive_eq by assumption.
    eexists _, _. split; [reflexivity|]. split; [apply Forall_nil|].
    rewrite Z.max_l by lia. reflexivity.
  - rewrite calcular_media_ponderada_run by lia.
    eexists _, _. split; [reflexivity|].
    destruct (reads_range_spec 0 (Z.to_nat count)) as [F L]. split.
    + eapply Forall_impl; [|exact F]. simpl. intros a Ha. lia.
    + rewrite L. lia.
Qed.

Lemma firstn_app_short {A : Type} (l l' : list A) (n : nat) :
  (n <= length l)%nat -> firstn n (l ++ l') = firstn n l.
Proof.
  intros Hn. rewrite firstn_app.
  replace (n - length l)%nat with O by lia. simpl. apply app_nil_r.
Qed.

(** X3. What the arrays hold from index [count] on has no part in the
    call: longer arrays with the same first [count] elements give the
    same value after the same reads. *)
Theorem calcular_media_ponderada_prefix notas pesos notas' pesos' count :
  count <= Z.of_nat (length notas) ->
  count <= Z.of_nat (length pesos) ->
  calcular_media_ponderada (notas ++ notas') (pesos ++ pesos') count
  = calcular_media_ponderada notas pesos count.
Proof.
  intros Hn Hp. destruct (Z_le_gt_dec count 0) as [Hc|Hc].
  - now rewrite !calcular_media_ponderada_count_nonpositive_eq.
  - rewrite !calcular_media_ponderada_run
      by (rewrite ?length_app; lia).
    unfold weighted_average, sum_products, sum_weights.
    rewrite !firstn_app_short by lia. reflexivity.
Qed.

Lemma is_nan_eq x : F32.is_nan x = true -> x = F32.nan.
Proof. destruct x; simpl; intros H; try discriminate; reflexivity. Qed.

Lemma add_nan_l x : F32.add F32.nan x = F32.nan.
Proof. reflexivity. Qed.

Lemma add_nan_r x : F32.add x F32.nan = F32.nan.
Proof. destruct x; reflexivity. Qed.

Lemma mul_nan_l x : F32.mul F32.nan x = F32.nan.
Proof. reflexivity. Qed.

Lemma div_nan_r x : F32.div x F32.nan = F32.nan.
Proof. destruct x; reflexivity. Qed.

(** An accumulation that meets a NaN term ends on a NaN. *)
Lemma fold_left_add_nan {X : Type} (g : X -> F32.t) (l : list X) : forall acc,
  acc = F32.nan \/ (exists x, In x l /\ g x = F32.nan) ->
  fold_left (fun a x => F32.add a (g x)) l acc = F32.nan.
Proof.
  induction l as [|y l IH]; intros acc H; simpl.
  - destruct H as [H|(x & [] & _)]. assumption.
  - apply IH. destruct H as [->|(x & [<-|Hx] & Hg)].
    + left. apply add_nan_l.
    + left. rewrite Hg. apply add_nan_r.
    + right. eauto.
Qed.

Lemma In_combine_l {X Y : Type} (l1 : list X) : forall (l2 : list Y) x,
  In x l1 -> length l1 = length l2 -> exists y, In (x, y) (combine l1 l2).
Proof.
  induction l1 as [|a l1 IH]; intros [|b l2] x Hx Hlen; simpl in *;
    try contradiction; try discriminate.
  destruct Hx as [->|Hx].
  - exists b. now left.
  - destruct (IH l2 x Hx) as (y & Hy); [lia|]. exists y. now right.
Qed.

(** X4. When one of the first [count] weights is a NaN the call returns
    a NaN, whatever the marks: the guard against a zero sum of weights
    does not catch a sum that is not a number. *)
Theorem calcular_media_ponderada_nan_weight notas pesos count p :
  0 < count ->
  count <= Z.of_nat (length notas) ->
  count <= Z.of_nat (length pesos) ->
  In p (firstn (Z.to_nat count) pesos) ->
  F32.is_nan p = true ->
  result (calcular_media_ponderada notas pesos count) = Done F32.nan.
Proof.
  intros Hc Hn Hp Hin Hnan. rewrite calcular_media_ponderada_run by lia.
  assert (sum_weights pesos count = F32.nan) as E.
  { unfold sum_weights.
    apply (fold_left_add_nan (fun x => x)). right. exists p.
    split; [assumption | now apply is_nan_eq]. }
  unfold weighted_average. rewrite E. simpl. now rewrite div_nan_r.
Qed.

(** X5. When one of the first [count] marks is a NaN and the sum of the
    weights does not compare equal to zero, the call returns a NaN. *)
Theorem calcular_media_ponderada_nan_score notas pesos count n :
  0 < count ->
  count <= Z.of_nat (length notas) ->
  count <= Z.of_nat (length pesos) ->
  In n (firstn (Z.to_nat count) notas) ->
  F32.is_nan n = true ->
  F32.eqb (sum_weights pesos count) F32.zero = false ->
  result (calcular_media_ponderada notas pesos count) = Done F32.nan.
Proof.
  intros Hc Hn Hp Hin Hnan Hnz. rewrite calcular_media_ponderada_run by lia.
  rewrite Hnz.
  assert (sum_products notas pesos count = F32.nan) as E.
  { unfold sum_products.
    destruct (In_combine_l (firstn (Z.to_nat count) notas)
                (firstn (Z.to_nat count) pesos) n Hin) as (w & Hw).
    { rewrite !length_firstn. lia. }
    apply (fold_left_add_nan (fun sw => F32.mul (fst sw) (snd sw))).
    right. exists (n, w). split; [assumption|]. simpl.
    rewrite (is_nan_eq _ Hnan). apply mul_nan_l. }
  unfold weighted_average. rewrite E. reflexivity.
Qed.

Lemma fold_left_add_zeros (l : list F32.t) :
  Forall (fun p => is_zero p = true) l ->
  fold_left F32.add l F32.zero = F32.zero.
Proof.
  induction 1 as [|p l Hp Hl IH]; simpl; [reflexivity|].
  destruct p as [[]| | |]; try discriminate; exact IH.
Qed.

(** X6. When each of the first [count] weights is a zero, of either
    sign, the call returns [0.0f], whatever the marks, a NaN or an
    infinity included. *)
Theorem calcular_media_ponderada_all_zero_weights notas pesos count :
  0 < count ->
  count <= Z.of_nat (length notas) ->
  count <= Z.of_nat (length pesos) ->
  Forall (fun p => is_zero p = true) (firstn (Z.to_nat count) pesos) ->
  result (calcular_media_ponderada notas pesos count) = Done F32.zero.
Proof.
  intros Hc Hn Hp Hz. rewrite calcular_media_ponderada_run by lia.
  unfold sum_weights. rewrite fold_left_add_zeros by assumption.
  reflexivity.
Qed.

End WeightedAverageRun.

(** ** The comparator as an order *)

Section ComparatorOrder.

Import F32 F32Facts.

Lemma comparar_desempenho_sym_zero a b :
  comparar_desempenho a b = 0 <-> comparar_desempenho b a = 0.
Proof. pose proof (comparar_sgn a b). pose proof (comparar_sgn b a). lia. Qed.

(** X7. The comparator returns -1, 0 or 1, and exchanging its two
    arguments negates its result; a record compares equal to itself. *)
Theorem comparar_desempenho_antisym a b :
  comparar_desempenho b a = - comparar_desempenho a b /\
  (comparar_desempenho a b = -1 \/ comparar_desempenho a b = 0
   \/ comparar_desempenho a b = 1) /\
  comparar_desempenho a a = 0.
Proof.
  pose proof (comparar_sgn a b) as Hab. pose proof (comparar_sgn a a) as Haa.
  destruct (comparar_range a b) as [E|[E|E]];
    destruct (comparar_range b a) as [E'|[E'|E']];
    destruct (comparar_range a a) as [E''|[E''|E'']];
    rewrite ?E, ?E', ?E'' in *; simpl in *; try discriminate;
    repeat split; auto.
Qed.

(** X8. The comparator returns 0 exactly when the two scores compare
    equal or one of them is a NaN. *)
Theorem comparar_desempenho_zero_iff a b :
  comparar_desempenho a b = 0 <->
  eqb (media_final a) (media_final b) = true
  \/ is_nan (media_final a) = true \/ is_nan (media_final b) = true.
Proof.
  split.
  - intros H0.
    destruct (is_nan (media_final a)) eqn:Ha; [auto|].
    destruct (is_nan (media_final b)) eqn:Hb; [auto|].
    left. apply eqb_key; try assumption.
    apply key_le_antisym.
    + apply comparar_key; try assumption.
      rewrite (proj1 (comparar_desempenho_sym_zero a b) H0). lia.
    + apply comparar_key; try assumption. lia.
  - intros [H|H]; [now apply comparar_eq | now apply comparar_nan].
Qed.

(** X9. The comparator is transitive through a record whose score is
    not a NaN: if [a] may precede [b] and [b] may precede [c], then [a]
    may precede [c]. *)
Theorem comparar_desempenho_trans a b c :
  is_nan (media_final b) = false ->
  comparar_desempenho a b <= 0 ->
  comparar_desempenho b c <= 0 ->
  comparar_desempenho a c <= 0.
Proof.
  intros Hb Hab Hbc.
  destruct (is_nan (media_final a)) eqn:Ha;
    [rewrite comparar_nan by auto; lia|].
  destruct (is_nan (media_final c)) eqn:Hc;
    [rewrite comparar_nan by auto; lia|].
  apply comparar_key; try assumption.
  apply comparar_key in Hab; try assumption.
  apply comparar_key in Hbc; try assumption.
  eapply key_le_trans; eassumption.
Qed.

(** X10. On the records of an array the comparator is the total
    ordering [qsort] requires exactly when no score is a NaN or all the
    records compare equal: with a NaN among them, any two records must
    compare equal. *)
Theorem comparar_desempenho_consistent_iff l :
  consistent comparar_desempenho l <->
  (forall x a b, In x l -> In a l -> In b l ->
     is_nan (media_final x) = true -> comparar_desempenho a b = 0).
Proof.
  split.
  - intros Hc x a b Hx Ha Hb Hnan.
    assert (comparar_desempenho a x = 0) as Eax by (apply comparar_nan; auto).
    assert (comparar_desempenho x b = 0) as Exb by (apply comparar_nan; auto).
    assert (comparar_desempenho b x = 0) as Ebx by (apply comparar_nan; auto).
    assert (comparar_desempenho x a = 0) as Exa by (apply comparar_nan; auto).
    destruct (Hc a x b Ha Hx Hb) as [_ T1].
    destruct (Hc b x a Hb Hx Ha) as [_ T2].
    pose proof (comparar_sgn a b) as S.
    assert (comparar_desempenho a b <= 0) by (apply T1; lia).
    assert (comparar_desempenho b a <= 0) by (apply T2; lia).
    lia.
  - intros H.
    destruct (existsb (fun r => is_nan (media_final r)) l) eqn:E.
    + apply existsb_exists in E. destruct E as (x & Hx & Hnan).
      intros a b c Ha Hb Hc. split; [apply comparar_sgn|].
      intros _ _. rewrite (H x a c) by assumption. lia.
    + apply comparar_consistent. intros r Hr.
      destruct (is_nan (media_final r)) eqn:Er; [|reflexivity].
      assert (existsb (fun r => is_nan (media_final r)) l = true)
        by (apply existsb_exists; eauto).
      congruence.
Qed.

End ComparatorOrder.

(** ** The ranking: every pair, sorted input, order of the input *)

Section RankingOrder.

Import F32 F32Facts.

Lemma StronglySorted_nth {A : Type} (R : A -> A -> Prop) l : forall i j a b,
  StronglySorted R l -> (i < j)%nat ->
  nth_error l i = Some a -> nth_error l j = Some b -> R a b.
Proof.
  induction l as [|x l IH]; intros i j a b Hs Hij Ha Hb.
  - destruct i; discriminate.
  - inversion Hs as [|? ? Hs' Hf]; subst.
    destruct j as [|j]; [lia|]. simpl in Hb.
    destruct i as [|i]; simpl in Ha.
    + inversion Ha; subst. rewrite Forall_forall in Hf.
      apply Hf. eapply nth_error_In; eassumption.
    + apply (IH i j a b); try assumption. lia.
Qed.

Lemma Sorted_of_consecutive {A : Type} (R : A -> A -> Prop) l :
  (forall i a b, nth_error l i = Some a -> nth_error l (S i) = Some b -> R a b) ->
  Sorted R l.
Proof.
  induction l as [|x l IH]; intros H; constructor.
  - apply IH. intros i a b Ha Hb. apply (H (S i)); assumption.
  - destruct l as [|y l]; constructor. apply (H O); reflexivity.
Qed.

Lemma no_nan_perm l l' : Permutation l l' -> no_nan l -> no_nan l'.
Proof.
  intros P Hl r Hr. apply Hl.
  eapply Permutation_in; [symmetry; exact P | exact Hr].
Qed.

(** Two descending arrangements of the same records carry the same
    scores, and are the same when no two different records are tied. *)
Lemma sorted_same_scores l1 l2 :
  no_nan l1 ->
  StronglySorted key_ge l1 -> StronglySorted key_ge l2 ->
  Permutation l1 l2 -> same_scores l1 l2.
Proof.
  intros Hn S1 S2 P.
  apply same_scores_of_keys; [assumption | eapply no_nan_perm; eassumption |].
  apply StronglySorted_unique with (R := fun k1 k2 => key_le k2 k1).
  - intros k1 k2 _ _ K1 K2. now apply key_le_antisym.
  - apply StronglySorted_map with (R := fun k1 k2 => key_le k2 k1). exact S1.
  - apply StronglySorted_map with (R := fun k1 k2 => key_le k2 k1). exact S2.
  - now apply Permutation_map.
Qed.

Lemma sorted_no_ties_eq l1 l2 :
  no_nan l1 -> no_ties l1 ->
  StronglySorted key_ge l1 -> StronglySorted key_ge l2 ->
  Permutation l1 l2 -> l1 = l2.
Proof.
  intros Hn Ht S1 S2 P.
  apply StronglySorted_unique with (R := key_ge); try assumption.
  intros a b Ha Hb Kab Kba. apply Ht; try assumption.
  apply eqb_key; [now apply Hn | now apply Hn |].
  now apply key_le_antisym.
Qed.

(** What a call leaves, on an array that holds [num_alunos] records
    without a NaN score. *)
Lemma ordenar_por_desempenho_sorted_prefix qsort arr num_alunos :
  conforming qsort ->
  num_alunos <= Z.of_nat (length arr) ->
  no_nan (firstn (Z.to_nat num_alunos) arr) ->
  exists out calls,
    ordenar_por_desempenho qsort (Some arr) num_alunos
    = Done (Some out, calls) /\
    Permutation (firstn (Z.to_nat num_alunos) arr)
                (firstn (Z.to_nat num_alunos) out) /\
    StronglySorted key_ge (firstn (Z.to_nat num_alunos) out) /\
    skipn (Z.to_nat num_alunos) out = skipn (Z.to_nat num_alunos) arr.
Proof.
  intros Hq Hn Hnan. destruct (Z_le_gt_dec num_alunos 1) as [H1|H1].
  - exists arr, []. rewrite ordenar_por_desempenho_guard by auto.
    split; [reflexivity|]. split; [reflexivity|]. split; [|reflexivity].
    assert (Z.to_nat num_alunos = O \/ Z.to_nat num_alunos = 1%nat) as [->| ->]
      by lia; simpl.
    + constructor.
    + destruct arr; repeat constructor.
  - rewrite ordenar_por_desempenho_qsort by lia.
    eexists _, _. split; [reflexivity|].
    destruct (firstn_sorted_prefix qsort Hq arr (Z.to_nat num_alunos))
      as (_ & -> & ->); [lia | now apply comparar_consistent |].
    split; [apply Hq; now apply comparar_consistent|]. split; [|reflexivity].
    now apply qsort_key_sorted.
Qed.

Lemma index_firstn {A : Type} (l : list A) (n i : Z) :
  0 <= i < n -> index (firstn (Z.to_nat n) l) i = index l i.
Proof.
  intros Hi. unfold index. destruct (Z.ltb_spec i 0); [lia|].
  rewrite nth_error_firstn.
  destruct (Nat.ltb_spec (Z.to_nat i) (Z.to_nat n)); [reflexivity | lia].
Qed.

Lemma index_In {A : Type} (l : list A) i a : index l i = Some a -> In a l.
Proof.
  unfold index. destruct (i <? 0); [discriminate|]. apply nth_error_In.
Qed.

(** X11. On a sequence of [num_alunos] records none of whose scores is
    a NaN, the call returns and leaves every record with a score [>=]
    that of every record after it, not only the next: the first record
    has the highest score and the last the lowest. *)
Theorem ordenar_por_desempenho_ranked qsort arr num_alunos :
  conforming qsort ->
  num_alunos <= Z.of_nat (length arr) ->
  no_nan (firstn (Z.to_nat num_alunos) arr) ->
  exists out calls,
    ordenar_por_desempenho qsort (Some arr) num_alunos
    = Done (Some out, calls) /\
    ranked out num_alunos.
Proof.
  intros Hq Hn Hnan.
  destruct (ordenar_por_desempenho_sorted_prefix qsort arr num_alunos Hq Hn Hnan)
    as (out & calls & Hrun & P & Hs & _).
  exists out, calls. split; [assumption|].
  intros i j a b Hi Hij Hj Ha Hb.
  rewrite <- (index_firstn out num_alunos) in Ha, Hb by lia.
  pose proof (no_nan_perm _ _ P Hnan) as Hnan'.
  pose proof (index_In _ _ _ Ha) as Ia. pose proof (index_In _ _ _ Hb) as Ib.
  unfold index in Ha, Hb.
  destruct (Z.ltb_spec i 0); [lia|]. destruct (Z.ltb_spec j 0); [lia|].
  assert (key_ge a b) as K
    by (eapply StronglySorted_nth; [exact Hs | | exact Ha | exact Hb]; lia).
  unfold geb. fold (leb (media_final b) (media_final a)).
  apply leb_key; auto.
Qed.

(** X12. A sequence already in descending order of scores, without a
    NaN and without two different records tied, is left as it is,
    whatever the [qsort]. *)
Theorem ordenar_por_desempenho_sorted_unchanged qsort arr num_alunos :
  conforming qsort ->
  num_alunos <= Z.of_nat (length arr) ->
  no_nan (firstn (Z.to_nat num_alunos) arr) ->
  no_ties (firstn (Z.to_nat num_alunos) arr) ->
  descending arr num_alunos ->
  result (ordenar_por_desempenho qsort (Some arr) num_alunos)
  = Done (Some arr).
Proof.
  intros Hq Hn Hnan Hties Hd.
  destruct (ordenar_por_desempenho_sorted_prefix qsort arr num_alunos Hq Hn Hnan)
    as (out & calls & -> & P & Hs & Hskip).
  simpl. assert (out = arr) as ->; [|reflexivity].
  rewrite <- (firstn_skipn (Z.to_nat num_alunos) out), Hskip.
  transitivity (firstn (Z.to_nat num_alunos) arr
                ++ skipn (Z.to_nat num_alunos) arr);
    [|apply firstn_skipn].
  f_equal. symmetry.
  apply sorted_no_ties_eq; try assumption.
  apply Sorted_StronglySorted.
  { intros a b c K1 K2. unfold key_ge in *. eapply key_le_trans; eassumption. }
  apply Sorted_of_consecutive. intros i a b Ha Hb.
  assert (In a (firstn (Z.to_nat num_alunos) arr)) as Ia
    by (eapply nth_error_In; eassumption).
  assert (In b (firstn (Z.to_nat num_alunos) arr)) as Ib
    by (eapply nth_error_In; eassumption).
  rewrite nth_error_firstn in Ha, Hb.
  destruct (Nat.ltb_spec i (Z.to_nat num_alunos)); [|discriminate].
  destruct (Nat.ltb_spec (S i) (Z.to_nat num_alunos)); [|discriminate].
  assert (geb (media_final a) (media_final b) = true) as G.
  { apply (Hd (Z.of_nat i)); try lia; unfold index.
    - destruct (Z.ltb_spec (Z.of_nat i) 0); [lia|]. now rewrite Nat2Z.id.
    - destruct (Z.ltb_spec (Z.of_nat i + 1) 0); [lia|].
      replace (Z.to_nat (Z.of_nat i + 1)) with (S i) by lia. assumption. }
  unfold key_ge. apply leb_key; auto.
Qed.

(** X13. The ranking depends neither on the order in which the records
    are given nor on the [qsort] at hand: two sequences of the same
    records, none with a NaN score, are left with the same scores at
    the same positions, and as the very same sequence when no two
    different records are tied. *)
Theorem ordenar_por_desempenho_order_independent
  qsort1 qsort2 arr1 arr2 num_alunos :
  conforming qsort1 -> conforming qsort2 ->
  num_alunos <= Z.of_nat (length arr1) ->
  num_alunos <= Z.of_nat (length arr2) ->
  Permutation (firstn (Z.to_nat num_alunos) arr1)
              (firstn (Z.to_nat num_alunos) arr2) ->
  no_nan (firstn (Z.to_nat num_alunos) arr1) ->
  exists out1 out2,
    result (ordenar_por_desempenho qsort1 (Some arr1) num_alunos)
    = Done (Some out1) /\
    result (ordenar_por_desempenho qsort2 (Some arr2) num_alunos)
    = Done (Some out2) /\
    same_scores (firstn (Z.to_nat num_alunos) out1)
                (firstn (Z.to_nat num_alunos) out2) /\
    (no_ties (firstn (Z.to_nat num_alunos) arr1) ->
     firstn (Z.to_nat num_alunos) out1 = firstn (Z.to_nat num_alunos) out2).
Proof.
  intros Hq1 Hq2 Hn1 Hn2 P Hnan1.
  pose proof (no_nan_perm _ _ P Hnan1) as Hnan2.
  destruct (ordenar_por_desempenho_sorted_prefix qsort1 arr1 num_alunos Hq1 Hn1 Hnan1)
    as (out1 & calls1 & -> & P1 & S1 & _).
  destruct (ordenar_por_desempenho_sorted_prefix qsort2 arr2 num_alunos Hq2 Hn2 Hnan2)
    as (out2 & calls2 & -> & P2 & S2 & _).
  exists out1, out2. split; [reflexivity|]. split; [reflexivity|].
  assert (Permutation (firstn (Z.to_nat num_alunos) out1)
                      (firstn (Z.to_nat num_alunos) out2)) as P12.
  { rewrite <- P1, <- P2. exact P. }
  pose proof (no_nan_perm _ _ P1 Hnan1) as Hnan1'.
  split.
  - now apply sorted_same_scores.
  - intros Hties. apply sorted_no_ties_eq; try assumption.
    intros a b Ha Hb. apply Hties;
      (eapply Permutation_in; [symmetry; exact P1 | assumption]).
Qed.

End RankingOrder.

(** ** The further properties on concrete inputs *)

(** X1 on the three marks of [main] with a count of 4. *)
Lemma calcular_media_ponderada_undefined_iff_witness :
  (0 < 4 /\
   (Z.of_nat (length notas_teste) < 4 \/ Z.of_nat (length pesos_teste) < 4)) /\
  calcular_media_ponderada notas_teste pesos_teste 4 = Undefined.
Proof.
  assert (0 < 4 /\
          (Z.of_nat (length notas_teste) < 4
           \/ Z.of_nat (length pesos_teste) < 4)) as H
    by (split; [lia | left; simpl; lia]).
  split; [assumption|].
  exact (proj2 (proj1 (calcular_media_ponderada_undefined_iff
                         notas_teste pesos_teste 4)) H).
Defined.

(** X2 on the marks of [main]. *)
Lemma calcular_media_ponderada_reads_in_bounds_witness :
  3 <= Z.of_nat (length notas_teste) /\
  3 <= Z.of_nat (length pesos_teste) /\
  exists v rs,
    calcular_media_ponderada notas_teste pesos_teste 3 = Done (v, rs) /\
    Forall (fun a => 0 <= access_index a < 3) rs /\
    Z.of_nat (length rs) = 3 * Z.max 0 3.
Proof.
  assert (3 <= Z.of_nat (length notas_teste)) as H1 by (simpl; lia).
  assert (3 <= Z.of_nat (length pesos_teste)) as H2 by (simpl; lia).
  split; [assumption|]. split; [assumption|].
  exact (calcular_media_ponderada_reads_in_bounds
           notas_teste pesos_teste 3 H1 H2).
Defined.

(** X3 on the first two marks of [main], followed or not by the third. *)
Lemma calcular_media_ponderada_prefix_witness :
  2 <= Z.of_nat (length [F32.of_decimal 75 1; F32.of_Z 9]) /\
  2 <= Z.of_nat (length [F32.of_Z 2; F32.of_Z 3]) /\
  calcular_media_ponderada
    ([F32.of_decimal 75 1; F32.of_Z 9] ++ [F32.of_Z 6])
    ([F32.of_Z 2; F32.of_Z 3] ++ [F32.of_Z 5]) 2
  = calcular_media_ponderada
      [F32.of_decimal 75 1; F32.of_Z 9] [F32.of_Z 2; F32.of_Z 3] 2.
Proof.
  assert (2 <= Z.of_nat (length [F32.of_decimal 75 1; F32.of_Z 9])) as H1
    by (simpl; lia).
  assert (2 <= Z.of_nat (length [F32.of_Z 2; F32.of_Z 3])) as H2
    by (simpl; lia).
  split; [assumption|]. split; [assumption|].
  exact (calcular_media_ponderada_prefix
           [F32.of_decimal 75 1; F32.of_Z 9] [F32.of_Z 2; F32.of_Z 3]
           [F32.of_Z 6] [F32.of_Z 5] 2 H1 H2).
Defined.

(** X4 on the marks of [main], the second weight a NaN. *)
Lemma calcular_media_ponderada_nan_weight_witness :
  0 < 3 /\
  3 <= Z.of_nat (length notas_teste) /\
  3 <= Z.of_nat (length [F32.of_Z 2; F32.nan; F32.of_Z 5]) /\
  In F32.nan (firstn (Z.to_nat 3) [F32.of_Z 2; F32.nan; F32.of_Z 5]) /\
  F32.is_nan F32.nan = true /\
  result (calcular_media_ponderada notas_teste
            [F32.of_Z 2; F32.nan; F32.of_Z 5] 3) = Done F32.nan.
Proof.
  assert (0 < 3) as H0 by lia.
  assert (3 <= Z.of_nat (length notas_teste)) as H1 by (simpl; lia).
  assert (3 <= Z.of_nat (length [F32.of_Z 2; F32.nan; F32.of_Z 5])) as H2
    by (simpl; lia).
  assert (In F32.nan (firstn (Z.to_nat 3) [F32.of_Z 2; F32.nan; F32.of_Z 5]))
    as H3 by (simpl; auto).
  assert (F32.is_nan F32.nan = true) as H4 by reflexivity.
  split; [assumption|]. split; [assumption|]. split; [assumption|].
  split; [assumption|]. split; [assumption|].
  exact (calcular_media_ponderada_nan_weight notas_teste
           [F32.of_Z 2; F32.nan; F32.of_Z 5] 3 F32.nan H0 H1 H2 H3 H4).
Defined.

(** X5 on the weights of [main], the first mark a NaN. *)
Lemma calcular_media_ponderada_nan_score_witness :
  0 < 3 /\
  3 <= Z.of_nat (length [F32.nan; F32.of_Z 9; F32.of_Z 6]) /\
  3 <= Z.of_nat (length pesos_teste) /\
  In F32.nan (firstn (Z.to_nat 3) [F32.nan; F32.of_Z 9; F32.of_Z 6]) /\
  F32.is_nan F32.nan = true /\
  F32.eqb (sum_weights pesos_teste 3) F32.zero = false /\
  result (calcular_media_ponderada [F32.nan; F32.of_Z 9; F32.of_Z 6]
            pesos_teste 3) = Done F32.nan.
Proof.
  assert (0 < 3) as H0 by lia.
  assert (3 <= Z.of_nat (length [F32.nan; F32.of_Z 9; F32.of_Z 6])) as H1
    by (simpl; lia).
  assert (3 <= Z.of_nat (length pesos_teste)) as H2 by (simpl; lia).
  assert (In F32.nan (firstn (Z.to_nat 3) [F32.nan; F32.of_Z 9; F32.of_Z 6]))
    as H3 by (simpl; auto).
  assert (F32.is_nan F32.nan = true) as H4 by reflexivity.
  assert (F32.eqb (sum_weights pesos_teste 3) F32.zero = false) as H5
    by reflexivity.
  split; [assumption|]. split; [assumption|]. split; [assumption|].
  split; [assumption|]. split; [assumption|]. split; [assumption|].
  exact (calcular_media_ponderada_nan_score [F32.nan; F32.of_Z 9; F32.of_Z 6]
           pesos_teste 3 F32.nan H0 H1 H2 H3 H4 H5).
Defined.

(** X6 on the weights [+0.0f] and [-0.0f], the marks a NaN and an
    infinity. *)
Lemma calcular_media_ponderada_all_zero_weights_witness :
  0 < 2 /\
  2 <= Z.of_nat (length [F32.nan; S754_infinity false]) /\
  2 <= Z.of_nat (length [S754_zero false; S754_zero true]) /\
  Forall (fun p => is_zero p = true)
    (firstn (Z.to_nat 2) [S754_zero false; S754_zero true]) /\
  result (calcular_media_ponderada [F32.nan; S754_infinity false]
            [S754_zero false; S754_zero true] 2) = Done F32.zero.
Proof.
  assert (0 < 2) as H0 by lia.
  assert (2 <= Z.of_nat (length [F32.nan; S754_infinity false])) as H1
    by (simpl; lia).
  assert (2 <= Z.of_nat (length [S754_zero false; S754_zero true])) as H2
    by (simpl; lia).
  assert (Forall (fun p => is_zero p = true)
            (firstn (Z.to_nat 2) [S754_zero false; S754_zero true])) as H3
    by (simpl; repeat constructor).
  split; [assumption|]. split; [assumption|]. split; [assumption|].
  split; [assumption|].
  exact (calcular_media_ponderada_all_zero_weights
           [F32.nan; S754_infinity false] [S754_zero false; S754_zero true]
           2 H0 H1 H2 H3).
Defined.

(** X8 on a record without a score against a record of the class. *)
Lemma comparar_desempenho_zero_iff_witness :
  (F32.eqb F32.nan (F32.of_decimal 85 1) = true
   \/ F32.is_nan F32.nan = true
   \/ F32.is_nan (F32.of_decimal 85 1) = true) /\
  comparar_desempenho (mkDesempenho 1 F32.nan)
    (mkDesempenho 101 (F32.of_decimal 85 1)) = 0.
Proof.
  assert (F32.eqb F32.nan (F32.of_decimal 85 1) = true
          \/ F32.is_nan F32.nan = true
          \/ F32.is_nan (F32.of_decimal 85 1) = true) as H
    by (right; left; reflexivity).
  split; [assumption|].
  exact (proj2 (comparar_desempenho_zero_iff (mkDesempenho 1 F32.nan)
                  (mkDesempenho 101 (F32.of_decimal 85 1))) H).
Defined.

(** X9 on the scores 9.8, 8.5 and 6.2. *)
Lemma comparar_desempenho_trans_witness :
  F32.is_nan (media_final (mkDesempenho 101 (F32.of_decimal 85 1))) = false /\
  comparar_desempenho (mkDesempenho 103 (F32.of_decimal 98 1))
    (mkDesempenho 101 (F32.of_decimal 85 1)) <= 0 /\
  comparar_desempenho (mkDesempenho 101 (F32.of_decimal 85 1))
    (mkDesempenho 102 (F32.of_decimal 62 1)) <= 0 /\
  comparar_desempenho (mkDesempenho 103 (F32.of_decimal 98 1))
    (mkDesempenho 102 (F32.of_decimal 62 1)) <= 0.
Proof.
  assert (F32.is_nan (media_final (mkDesempenho 101 (F32.of_decimal 85 1)))
          = false) as H0 by reflexivity.
  assert (comparar_desempenho (mkDesempenho 103 (F32.of_decimal 98 1))
            (mkDesempenho 101 (F32.of_decimal 85 1)) <= 0) as H1
    by (vm_compute; discriminate).
  assert (comparar_desempenho (mkDesempenho 101 (F32.of_decimal 85 1))
            (mkDesempenho 102 (F32.of_decimal 62 1)) <= 0) as H2
    by (vm_compute; discriminate).
  split; [assumption|]. split; [assumption|]. split; [assumption|].
  exact (comparar_desempenho_trans _ _ _ H0 H1 H2).
Defined.

(** X10 on the class of [main], which holds no NaN. *)
Lemma comparar_desempenho_consistent_iff_witness :
  (forall x a b, In x turma -> In a turma -> In b turma ->
     F32.is_nan (media_final x) = true -> comparar_desempenho a b = 0) /\
  consistent comparar_desempenho turma.
Proof.
  assert (forall x a b, In x turma -> In a turma -> In b turma ->
            F32.is_nan (media_final x) = true -> comparar_desempenho a b = 0)
    as H.
  { intros x a b Hx _ _ Hnan. simpl in Hx.
    destruct Hx as [<-|[<-|[<-|[<-|[]]]]]; discriminate Hnan. }
  split; [assumption|].
  exact (proj2 (comparar_desempenho_consistent_iff turma) H).
Defined.

(** X11 on the class of [main]. *)
Lemma ordenar_por_desempenho_ranked_witness :
  conforming qsort_unstable /\
  4 <= Z.of_nat (length turma) /\
  no_nan (firstn (Z.to_nat 4) turma) /\
  exists out calls,
    ordenar_por_desempenho qsort_unstable (Some turma) 4
    = Done (Some out, calls) /\
    ranked out 4.
Proof.
  assert (4 <= Z.of_nat (length turma)) as H1 by (simpl; lia).
  split; [apply qsort_unstable_conforming|]. split; [assumption|].
  split; [apply no_nan_turma|].
  exact (ordenar_por_desempenho_ranked qsort_unstable turma 4
           qsort_unstable_conforming H1 no_nan_turma).
Defined.

Lemma no_nan_turma_ordenada : no_nan (firstn (Z.to_nat 4) turma_ordenada).
Proof.
  intros r Hr. simpl in Hr.
  destruct Hr as [<-|[<-|[<-|[<-|[]]]]]; reflexivity.
Defined.

Lemma no_ties_turma_ordenada : no_ties (firstn (Z.to_nat 4) turma_ordenada).
Proof.
  intros a b Ha Hb. simpl in Ha, Hb.
  destruct Ha as [<-|[<-|[<-|[<-|[]]]]];
    destruct Hb as [<-|[<-|[<-|[<-|[]]]]];
    intros E; try reflexivity; vm_compute in E; discriminate E.
Defined.

Lemma descending_turma_ordenada : descending turma_ordenada 4.
Proof.
  intros i a b Hi Hi' Ha Hb.
  assert (i = 0 \/ i = 1 \/ i = 2) as [->|[->| ->]] by lia;
    vm_compute in Ha, Hb;
    injection Ha as <-; injection Hb as <-; reflexivity.
Defined.

(** X12 on the ranked class of [main]. *)
Lemma ordenar_por_desempenho_sorted_unchanged_witness :
  conforming qsort_unstable /\
  4 <= Z.of_nat (length turma_ordenada) /\
  no_nan (firstn (Z.to_nat 4) turma_ordenada) /\
  no_ties (firstn (Z.to_nat 4) turma_ordenada) /\
  descending turma_ordenada 4 /\
  result (ordenar_por_desempenho qsort_unstable (Some turma_ordenada) 4)
  = Done (Some turma_ordenada).
Proof.
  assert (4 <= Z.of_nat (length turma_ordenada)) as H1 by (simpl; lia).
  split; [apply qsort_unstable_conforming|]. split; [assumption|].
  split; [apply no_nan_turma_ordenada|].
  split; [apply no_ties_turma_ordenada|].
  split; [apply descending_turma_ordenada|].
  exact (ordenar_por_desempenho_sorted_unchanged qsort_unstable
           turma_ordenada 4 qsort_unstable_conforming H1
           no_nan_turma_ordenada no_ties_turma_ordenada
           descending_turma_ordenada).
Defined.

Lemma turma_perm_ordenada :
  Permutation (firstn (Z.to_nat 4) turma) (firstn (Z.to_nat 4) turma_ordenada).
Proof.
  exact (qsort_permutes _ qsort_stable_conforming _ comparar_desempenho
           (firstn (Z.to_nat 4) turma) (comparar_consistent _ no_nan_turma)).
Defined.

(** X13 on the class of [main], as given and already ranked, with the
    two implementations of [qsort]. *)
Lemma ordenar_por_desempenho_order_independent_witness :
  conforming qsort_stable /\ conforming qsort_unstable /\
  4 <= Z.of_nat (length turma) /\
  4 <= Z.of_nat (length turma_ordenada) /\
  Permutation (firstn (Z.to_nat 4) turma)
              (firstn (Z.to_nat 4) turma_ordenada) /\
  no_nan (firstn (Z.to_nat 4) turma) /\
  exists out1 out2,
    result (ordenar_por_desempenho qsort_stable (Some turma) 4)
    = Done (Some out1) /\
    result (ordenar_por_desempenho qsort_unstable (Some turma_ordenada) 4)
    = Done (Some out2) /\
    same_scores (firstn (Z.to_nat 4) out1) (firstn (Z.to_nat 4) out2) /\
    (no_ties (firstn (Z.to_nat 4) turma) ->
     firstn (Z.to_nat 4) out1 = firstn (Z.to_nat 4) out2).
Proof.
  assert (4 <= Z.of_nat (length turma)) as H1 by (simpl; lia).
  assert (4 <= Z.of_nat (length turma_ordenada)) as H2 by (simpl; lia).
  split; [apply qsort_stable_conforming|].
  split; [apply qsort_unstable_conforming|].
  split; [assumption|]. split; [assumption|].
  split; [apply turma_perm_ordenada|]. split; [apply no_nan_turma|].
  exact (ordenar_por_desempenho_order_independent qsort_stable qsort_unstable
           turma turma_ordenada 4 qsort_stable_conforming
           qsort_unstable_conforming H1 H2 turma_perm_ordenada no_nan_turma).
Defined.
